(** * QDirStat: the directory tree (DirTree.cpp)

    A shallow embedding of [QDirStat::DirTree] and of the part of the
    [FileInfo] / [DirInfo] object graph it manipulates.

    Objects live in a store indexed by addresses; a C++ pointer is an
    [option ptr] ([None] is the null pointer).  Qt signals are recorded, in
    emission order, in a trace.  Methods of [DirTree] run in a small state
    and error monad: an error is a dereference of a null or dangling
    pointer. *)

From stdpp Require Import base option list strings gmap fin_maps.
From Stdlib Require Import ZArith Lia Ascii String.

Open Scope Z_scope.
Open Scope string_scope.
Open Scope list_scope.

(** ** Entries *)

Definition ptr := nat.

(** Modelled from the spec: the [FileInfo] / [DirInfo] classes (DirTree.h,
    FileInfo.h and DirInfo.h are not part of the sources at hand).  An Entry
    has a name (a path component, the absolute URL for a toplevel entry), a
    kind, a size, the "finished reading" and "excluded" flags and a
    non-owning back-reference to its parent; a directory owns an ordered
    collection of children and, when present, an overflow grouping (dot
    entry), and carries the aggregates of its descendants. *)
Record FileInfo := mkFileInfo {
  _name : string;
  _parent : option ptr;
  _isDirInfo : bool;
  _isDotEntry : bool;
  _isExcluded : bool;
  _isFinished : bool;
  _size : Z;
  _children : list ptr;          (* _firstChild and the next() chain *)
  _dotEntry : option ptr;
  _totalSize : Z;                (* aggregates over all descendants *)
  _totalItems : Z;
  _totalSubDirs : Z
}.

Abbreviation Store := (gmap ptr FileInfo).

Definition set_children (l : list ptr) (fi : FileInfo) : FileInfo :=
  mkFileInfo (_name fi) (_parent fi) (_isDirInfo fi) (_isDotEntry fi)
    (_isExcluded fi) (_isFinished fi) (_size fi) l (_dotEntry fi)
    (_totalSize fi) (_totalItems fi) (_totalSubDirs fi).

Definition setDotEntry (d : option ptr) (fi : FileInfo) : FileInfo :=
  mkFileInfo (_name fi) (_parent fi) (_isDirInfo fi) (_isDotEntry fi)
    (_isExcluded fi) (_isFinished fi) (_size fi) (_children fi) d
    (_totalSize fi) (_totalItems fi) (_totalSubDirs fi).

Definition setExcluded (b : bool) (fi : FileInfo) : FileInfo :=
  mkFileInfo (_name fi) (_parent fi) (_isDirInfo fi) (_isDotEntry fi)
    b (_isFinished fi) (_size fi) (_children fi) (_dotEntry fi)
    (_totalSize fi) (_totalItems fi) (_totalSubDirs fi).

(** What an entry adds to each aggregate of its ancestors. *)
Record Summary := mkSummary { sumSize : Z; sumItems : Z; sumSubDirs : Z }.

Definition contribution (fi : FileInfo) : Summary :=
  if _isDotEntry fi
  then mkSummary (_totalSize fi) (_totalItems fi) (_totalSubDirs fi)
  else mkSummary (_size fi + _totalSize fi) (1 + _totalItems fi)
         ((if _isDirInfo fi then 1 else 0) + _totalSubDirs fi).

Definition negSummary (d : Summary) : Summary :=
  mkSummary (- sumSize d) (- sumItems d) (- sumSubDirs d).

Definition addSummary (d : Summary) (fi : FileInfo) : FileInfo :=
  mkFileInfo (_name fi) (_parent fi) (_isDirInfo fi) (_isDotEntry fi)
    (_isExcluded fi) (_isFinished fi) (_size fi) (_children fi) (_dotEntry fi)
    (_totalSize fi + sumSize d) (_totalItems fi + sumItems d)
    (_totalSubDirs fi + sumSubDirs d).

(** Modelled from the spec: [DirInfo::hasChildren] and
    [DirInfo::firstChild].  The overflow grouping is a pseudo-child owned by
    its directory. *)
Definition hasChildren (fi : FileInfo) : bool :=
  match _children fi, _dotEntry fi with
  | [], None => false
  | _, _ => true
  end.

Definition firstChild (fi : FileInfo) : option ptr := head (_children fi).

(** ** Operations on the object graph *)

(** Aggregate propagation along the ancestor chain, starting at [p].  The
    chain of a store with [n] objects has at most [n] links; the fuel only
    cuts the walk on a cyclic (corrupt) chain. *)
Fixpoint propagate (fuel : nat) (d : Summary) (p : option ptr) (s : Store)
  : Store :=
  match fuel, p with
  | S n, Some q =>
      match s !! q with
      | Some fi => propagate n d (_parent fi) (<[q := addSummary d fi]> s)
      | None => s
      end
  | _, _ => s
  end.

(** What aggregate propagation leaves alone in an entry. *)
Definition shape (fi : FileInfo) :=
  (_name fi, _parent fi, _isDirInfo fi, _isDotEntry fi, _isExcluded fi,
   _isFinished fi, _size fi, _children fi, _dotEntry fi).

Definition remove_ptr (c : ptr) (l : list ptr) : list ptr :=
  filter (λ x, x ≠ c) l.

(** Modelled from the spec: [DirInfo::deletingChild (child)] unlinks the
    child from the children of its parent and decrements the aggregates of
    the parent and of every ancestor by the child's contribution. *)
Definition DirInfo_deletingChild (parent child : ptr) (s : Store) : Store :=
  match s !! parent with
  | None => s
  | Some pfi =>
      let d := from_option contribution (mkSummary 0 0 0) (s !! child) in
      let s1 := <[parent := set_children (remove_ptr child (_children pfi)) pfi]> s in
      propagate (size s) (negSummary d) (Some parent) s1
  end.

(** Modelled from the spec: [DirInfo::insertChild (child)] links the child
    under its parent and adds its contribution to every ancestor.  The
    children of a directory are an ordered set: inserting a child that is
    already linked changes nothing. *)
Definition DirInfo_insertChild (parent child : ptr) (s : Store) : Store :=
  match s !! parent with
  | None => s
  | Some pfi =>
      if decide (child ∈ _children pfi) then s
      else
        let d := from_option contribution (mkSummary 0 0 0) (s !! child) in
        let s1 := <[parent := set_children (child :: _children pfi) pfi]> s in
        propagate (size s) d (Some parent) s1
  end.

(** Modelled from the spec: the destructor.  [delete p] destroys the entry
    and, recursively, the children and the overflow grouping it owns. *)
Fixpoint destroy (fuel : nat) (p : ptr) (s : Store) : Store :=
  match fuel with
  | O => delete p s
  | S n =>
      match s !! p with
      | None => s
      | Some fi =>
          foldr (destroy n) (delete p s)
            (_children fi ++ option_list (_dotEntry fi))
      end
  end.

Definition delete_object (p : ptr) (s : Store) : Store := destroy (size s) p s.

(** Modelled from the spec: [DirInfo::clear] recursively empties a directory
    without destroying the directory itself. *)
Definition DirInfo_clear (p : ptr) (s : Store) : Store :=
  match s !! p with
  | None => s
  | Some fi =>
      let s1 := foldr delete_object s
                  (_children fi ++ option_list (_dotEntry fi)) in
      <[p := mkFileInfo (_name fi) (_parent fi) (_isDirInfo fi)
               (_isDotEntry fi) (_isExcluded fi) (_isFinished fi) (_size fi)
               [] None 0 0 0]> s1
  end.

(** Modelled from the spec: [FileInfo::url].  An entry without parent
    answers its name; an overflow grouping answers for its directory; any
    other entry appends its path component to the url of its parent. *)
Fixpoint url_upto (fuel : nat) (s : Store) (p : ptr) : string :=
  match fuel with
  | O => ""
  | S n =>
      match s !! p with
      | None => ""
      | Some fi =>
          match _parent fi with
          | None => _name fi
          | Some q =>
              if _isDotEntry fi then url_upto n s q
              else url_upto n s q ++ "/" ++ _name fi
          end
      end
  end.

Definition FileInfo_url (s : Store) (p : ptr) : string :=
  url_upto (S (size s)) s p.

Arguments FileInfo_url : simpl never.

(** ** The tree, its signals and its job queue *)

(** The Qt signals of [DirTree]; a pointer argument is the address of the
    entry, [None] for a null pointer. *)
Inductive Signal :=
| clearing
| startingReading
| childAdded (newChild : ptr)
| deletingChild (child : ptr)
| childDeleted
| readJobFinished (dir : option ptr)
| finished
| aborted
| progressInfo (text : string)
| finalizeLocal (dir : option ptr).

(** A read job is bound to one directory (a cache job to a parent and a
    cache file). *)
Inductive DirReadJob :=
| LocalDirReadJob (dir : ptr)
| CacheReadJob (parent : option ptr) (cacheFileName : string).

(** The members of [DirTree], the object store and the signals emitted so
    far. *)
Record World := mkWorld {
  _isBusy : bool;
  _root : option ptr;
  _jobQueue : list DirReadJob;
  _crossFileSystems : bool;
  _enableLocalDirReader : bool;
  store : Store;
  emitted : list Signal
}.

(** Modelled from the spec: [DirReadJobQueue] (DirReadJob.h is not part of
    the sources at hand): an ordered queue of pending jobs; [clear] and
    [abort] both empty it. *)
Definition DirReadJobQueue_isEmpty (q : list DirReadJob) : bool :=
  match q with [] => true | _ => false end.
Definition DirReadJobQueue_enqueue (j : DirReadJob) (q : list DirReadJob)
  : list DirReadJob := q ++ [j].
Definition DirReadJobQueue_clear (q : list DirReadJob) : list DirReadJob := [].
Definition DirReadJobQueue_abort (q : list DirReadJob) : list DirReadJob := [].

(** ** The state and error monad of the methods *)

Definition M (A : Type) : Type := World → option (A * World).

Definition ret {A} (a : A) : M A := λ w, Some (a, w).
Definition bind {A B} (m : M A) (k : A → M B) : M B :=
  λ w, match m w with
       | Some (a, w') => k a w'
       | None => None
       end.
Definition crash {A} : M A := λ _, None.

Declare Scope dirtree_scope.
Delimit Scope dirtree_scope with dirtree.
Notation "x <- m ;; k" := (bind m (λ x, k))
  (at level 100, m at next level, right associativity) : dirtree_scope.
Notation "m ;; k" := (bind m (λ _, k))
  (at level 100, right associativity) : dirtree_scope.
Open Scope dirtree_scope.

Definition getW {A} (f : World → A) : M A := λ w, Some (f w, w).

Definition set_isBusy (b : bool) : M unit := λ w,
  Some (tt, mkWorld b (_root w) (_jobQueue w) (_crossFileSystems w)
              (_enableLocalDirReader w) (store w) (emitted w)).
Definition set_root (r : option ptr) : M unit := λ w,
  Some (tt, mkWorld (_isBusy w) r (_jobQueue w) (_crossFileSystems w)
              (_enableLocalDirReader w) (store w) (emitted w)).
Definition modify_jobQueue (f : list DirReadJob → list DirReadJob) : M unit :=
  λ w, Some (tt, mkWorld (_isBusy w) (_root w) (f (_jobQueue w))
                   (_crossFileSystems w) (_enableLocalDirReader w) (store w)
                   (emitted w)).
Definition set_config (cross localReader : bool) : M unit := λ w,
  Some (tt, mkWorld (_isBusy w) (_root w) (_jobQueue w) cross localReader
              (store w) (emitted w)).
Definition modify_store (f : Store → Store) : M unit := λ w,
  Some (tt, mkWorld (_isBusy w) (_root w) (_jobQueue w) (_crossFileSystems w)
              (_enableLocalDirReader w) (f (store w)) (emitted w)).
Definition emit (sig : Signal) : M unit := λ w,
  Some (tt, mkWorld (_isBusy w) (_root w) (_jobQueue w) (_crossFileSystems w)
              (_enableLocalDirReader w) (store w) (emitted w ++ [sig])).

(** [p->...]: the object behind a pointer; a dangling pointer is an error. *)
Definition deref (p : ptr) : M FileInfo := λ w,
  match store w !! p with
  | Some fi => Some (fi, w)
  | None => None
  end.

(** [delete p] *)
Definition delete_ptr (p : ptr) : M unit :=
  _ <- deref p ;; modify_store (delete_object p).

(** [p->url()] *)
Definition url_of (p : ptr) : M string :=
  _ <- deref p ;; s <- getW store ;; ret (FileInfo_url s p).

(** An action keeps the root when no run of it changes [_root]; it may drop
    the root when a run either keeps [_root] or leaves it null. *)
Definition keeps_root {A} (m : M A) : Prop :=
  ∀ w a w', m w = Some (a, w') → _root w' = _root w.

Definition may_drop_root {A} (m : M A) : Prop :=
  ∀ w a w', m w = Some (a, w') → _root w' = _root w ∨ _root w' = None.

(** ** The environment: Qt path functions and the file system *)

(** What [lstat] reports about a path. *)
Record StatInfo := mkStatInfo { st_isDir : bool; st_size : Z }.

Module DirTree.
Section Methods.

(** [QFileInfo::absoluteFilePath], [QDir::cleanPath], the last path
    component of a url, and the [lstat] system call. *)
Variable absoluteFilePath : string → string.
Variable cleanPath : string → string.
Variable baseName : string → string.
Variable lstat : string → option StatInfo.

(** Modelled from the spec: [LocalDirReadJob::stat (url, tree, parent)]
    (DirReadJob.cpp is not part of the sources at hand): a synchronous
    existence and type check of [url]; null when it fails, otherwise a new
    Entry created under [parent] (a directory Entry for a directory, a plain
    file Entry otherwise): it has a back-reference to [parent] and is one of
    its children, so that the Entry [startReading] creates under [_root] is
    what [firstToplevel] answers afterwards. *)
Definition newFileInfo (url : string) (st : StatInfo) (parent : option ptr)
  (s : Store) : FileInfo :=
  let grandparent := match parent with
                     | Some p => match s !! p with
                                 | Some pfi => _parent pfi
                                 | None => None
                                 end
                     | None => None
                     end in
  let name := match grandparent with
              | Some _ => baseName url
              | None => url
              end in
  mkFileInfo name parent (st_isDir st) false false false (st_size st)
    [] None 0 0 0.

Definition LocalDirReadJob_stat (url : string) (parent : option ptr)
  (s : Store) : option ptr * Store :=
  match lstat url with
  | None => (None, s)
  | Some st =>
      let p := fresh (dom s) in
      let s1 := <[p := newFileInfo url st parent s]> s in
      (Some p, match parent with
               | Some q => DirInfo_insertChild q p s1
               | None => s1
               end)
  end.

Definition stat (url : string) (parent : option ptr) : M (option ptr) := λ w,
  let '(r, s') := LocalDirReadJob_stat url parent (store w) in
  Some (r, mkWorld (_isBusy w) (_root w) (_jobQueue w) (_crossFileSystems w)
             (_enableLocalDirReader w) s' (emitted w)).

(** Modelled from the spec: the [CHECK_NEW] and [CHECK_PTR] macros
    (Exception.h is not part of the sources at hand).  The spec has
    [startReading] go on to its failure branch when [stat] answers null, so
    the checks are diagnostics that let control continue. *)
Definition CHECK_PTR {A} (p : option A) : M unit := ret tt.

(** *** DirTree.cpp *)

Definition readConfig : M unit := set_config false true.

(** Modelled from the spec: [DirInfo (tree)], the constructor of the
    synthetic root: an empty, finished directory without parent. *)
Definition newRoot : FileInfo :=
  mkFileInfo "" None true false false true 0 [] None 0 0 0.

(** [DirTree::DirTree ()] *)
Definition DirTree_new : World :=
  let r := fresh (dom (∅ : Store)) in
  mkWorld false (Some r) [] false true {[ r := newRoot ]} [].

Definition setRoot (newRoot : option ptr) : M unit :=
  r <- getW _root ;;
  match r with
  | Some old =>
      emit (deletingChild old) ;; delete_ptr old ;; emit childDeleted
  | None => ret tt
  end ;;
  set_root newRoot.

Definition firstToplevel : M (option ptr) :=
  r <- getW _root ;;
  match r with
  | Some r => rfi <- deref r ;; ret (firstChild rfi)
  | None => ret None
  end.

Definition isTopLevel (item : option ptr) : M bool :=
  match item with
  | None => ret false
  | Some e =>
      fi <- deref e ;;
      match _parent fi with
      | None => ret false
      | Some p =>
          pfi <- deref p ;;
          ret (match _parent pfi with None => true | Some _ => false end)
      end
  end.

Definition url : M string :=
  realRoot <- firstToplevel ;;
  match realRoot with
  | Some e => url_of e
  | None => ret ""
  end.

Definition clear : M unit :=
  modify_jobQueue DirReadJobQueue_clear ;;
  r <- getW _root ;;
  match r with
  | Some r => emit clearing ;; _ <- deref r ;; modify_store (DirInfo_clear r)
  | None => ret tt
  end ;;
  set_isBusy false.

Definition addJob (job : DirReadJob) : M unit :=
  modify_jobQueue (DirReadJobQueue_enqueue job).

Definition childAddedNotify (newChild : ptr) : M unit :=
  emit (childAdded newChild) ;;
  fi <- deref newChild ;;
  match _dotEntry fi with
  | Some d => emit (childAdded d)
  | None => ret tt
  end.

(** [_root->] on a null [_root] is an error. *)
Definition deref_root : M (ptr * FileInfo) :=
  r <- getW _root ;;
  match r with
  | Some r => rfi <- deref r ;; ret (r, rfi)
  | None => crash
  end.

Definition startReading (rawUrl : string) : M unit :=
  let url := absoluteFilePath rawUrl in
  set_isBusy true ;;
  rt <- deref_root ;;
  (if hasChildren (snd rt) then clear else ret tt) ;;
  emit startingReading ;;
  readConfig ;;
  r <- getW _root ;;
  item <- stat url r ;;
  CHECK_PTR item ;;
  match item with
  | Some item =>
      childAddedNotify item ;;
      ifi <- deref item ;;
      if _isDirInfo ifi then
        addJob (LocalDirReadJob item) ;;
        r <- getW _root ;;
        emit (readJobFinished r)
      else
        set_isBusy false ;;
        r <- getW _root ;;
        emit (readJobFinished r) ;;
        emit finished
  | None =>
      (* stat() failed *)
      set_isBusy false ;;
      emit finished ;;
      emit (finalizeLocal None)
  end.

Definition refresh (subtree : option ptr) : M unit :=
  r <- getW _root ;;
  match r with
  | None => ret tt
  | Some _ =>
      par <- match subtree with
             | None => ret None
             | Some e => fi <- deref e ;; ret (_parent fi)
             end ;;
      match subtree, par with
      | Some e, Some parent =>
          (* Refresh subtree *)
          url <- url_of e ;;
          modify_store (alter (setExcluded false) e) ;;
          emit (deletingChild e) ;;
          _ <- deref parent ;;
          modify_store (DirInfo_deletingChild parent e) ;;
          delete_ptr e ;;
          emit childDeleted ;;
          set_isBusy true ;;
          emit startingReading ;;
          item <- stat url (Some parent) ;;
          match item with
          | Some n =>
              _ <- deref parent ;;
              modify_store (DirInfo_insertChild parent n) ;;
              childAddedNotify n ;;
              nfi <- deref n ;;
              if _isDirInfo nfi then addJob (LocalDirReadJob n)
              else set_isBusy false ;; emit finished
          | None => ret tt
          end
      | _, _ =>
          (* Refresh all (from root) *)
          top <- firstToplevel ;;
          match top with
          | Some t => u <- url_of t ;; startReading (cleanPath u)
          | None => crash
          end
      end
  end.

Definition abortReading : M unit :=
  q <- getW _jobQueue ;;
  if DirReadJobQueue_isEmpty q then ret tt
  else
    modify_jobQueue DirReadJobQueue_abort ;;
    set_isBusy false ;;
    emit aborted.

Definition slotFinished : M unit :=
  set_isBusy false ;; emit finished.

Definition deletingChildNotify (deletedChild : ptr) : M unit :=
  emit (deletingChild deletedChild) ;;
  r <- getW _root ;;
  if decide (r = Some deletedChild) then set_root None else ret tt.

Definition childDeletedNotify : M unit := emit childDeleted.

Definition deleteSubtree (subtree : ptr) : M unit :=
  sfi <- deref subtree ;;
  let parent := _parent sfi in
  deletingChildNotify subtree ;;
  match parent with
  | Some p =>
      pfi <- deref p ;;
      if _isDotEntry pfi && negb (hasChildren pfi) then
        (* This was the last child of a dot entry *)
        match _parent pfi with
        | Some g =>
            gfi <- deref g ;;
            if _isFinished gfi then
              deletingChildNotify p ;;
              modify_store (alter (setDotEntry None) g) ;;
              delete_ptr p
            else ret tt
        | None =>
            (* logError: killing dot entry without parent; left alone *)
            ret tt
        end
      else ret tt
  | None => ret tt
  end ;;
  match parent with
  | Some p => _ <- deref p ;; modify_store (DirInfo_deletingChild p subtree)
  | None => ret tt
  end ;;
  delete_ptr subtree ;;
  r <- getW _root ;;
  (if decide (r = Some subtree) then set_root None else ret tt) ;;
  emit childDeleted.

Definition readCache (cacheFileName : string) : M unit :=
  set_isBusy true ;;
  emit startingReading ;;
  addJob (CacheReadJob None cacheFileName).

End Methods.
End DirTree.

(** ** Sequences of operations *)

(** The operations a client drives the tree with. *)
Inductive Op :=
| OpStartScan (path : string)
| OpRefresh (entry : option ptr)
| OpDeleteSubtree (entry : ptr)
| OpClear
| OpAbort.

Section Runs.

Variable absoluteFilePath cleanPath baseName : string → string.
Variable lstat : string → option StatInfo.

Definition run_op (o : Op) : M unit :=
  match o with
  | OpStartScan path => DirTree.startReading absoluteFilePath baseName lstat path
  | OpRefresh e => DirTree.refresh absoluteFilePath cleanPath baseName lstat e
  | OpDeleteSubtree e => DirTree.deleteSubtree e
  | OpClear => DirTree.clear
  | OpAbort => DirTree.abortReading
  end.

Fixpoint run_ops (ops : list Op) : M unit :=
  match ops with
  | [] => ret tt
  | o :: ops' => run_op o ;; run_ops ops'
  end.

(** The specification's reading of a full refresh: run [startReading] once
    more on the path of the existing toplevel entry (its url, cleaned). *)
Definition startScan_again (top : ptr) : M unit := λ w,
  DirTree.startReading absoluteFilePath baseName lstat
    (cleanPath (FileInfo_url (store w) top)) w.

(** An operation spares the root when it is not [deleteSubtree] of the root
    itself (the root being, as constructed, an entry without parent). *)
Definition spares_root (o : Op) (w : World) : Prop :=
  match o with
  | OpDeleteSubtree e =>
      _root w ≠ Some e ∧
      ∀ r rfi, _root w = Some r → store w !! r = Some rfi → _parent rfi = None
  | _ => True
  end.

Fixpoint spared (ops : list Op) (w : World) : Prop :=
  match ops with
  | [] => True
  | o :: ops' =>
      spares_root o w ∧ ∀ w', run_op o w = Some (tt, w') → spared ops' w'
  end.

End Runs.

(** ** A sample file system and sample trees *)

Module Sample.

(** Collapses runs of slashes, as [QDir::cleanPath] does. *)
Fixpoint cleanPath (s : string) : string :=
  match s with
  | EmptyString => EmptyString
  | String c t =>
      match t with
      | String c' _ =>
          if (Ascii.eqb c "/"%char && Ascii.eqb c' "/"%char)%bool
          then cleanPath t
          else String c (cleanPath t)
      | EmptyString => String c EmptyString
      end
  end.

Definition absoluteFilePath (s : string) : string := s.
Definition baseName (s : string) : string := s.

(** Two directories and a plain file; nothing else exists. *)
Definition lstat (u : string) : option StatInfo :=
  if String.eqb u "/a" then Some (mkStatInfo true 4096)
  else if String.eqb u "/b" then Some (mkStatInfo true 4096)
  else if String.eqb u "/f" then Some (mkStatInfo false 10)
  else None.

Definition startReading := DirTree.startReading absoluteFilePath baseName lstat.
Definition refresh := DirTree.refresh absoluteFilePath cleanPath baseName lstat.
Definition run_ops := run_ops absoluteFilePath cleanPath baseName lstat.

(** A finished scan of [/a], which held the file [x] (10 bytes) when it was
    read: root 0, toplevel directory 1, file 2. *)
Definition scanned : World :=
  mkWorld false (Some 0%nat) [] false true
    (list_to_map
       [ (0%nat, mkFileInfo "" None true false false true 0 [1%nat] None
                   4106 2 1);
         (1%nat, mkFileInfo "/a" (Some 0%nat) true false false true 4096
                   [2%nat] None 10 1 0);
         (2%nat, mkFileInfo "x" (Some 1%nat) false false false true 10
                   [] None 0 0 0) ])
    [].

(** A finished scan of [/a] whose only file [x] sits in the overflow
    grouping of [/a]: root 0, toplevel directory 1, its dot entry 2,
    file 3. *)
Definition grouped : World :=
  mkWorld false (Some 0%nat) [] false true
    (list_to_map
       [ (0%nat, mkFileInfo "" None true false false true 0 [1%nat] None
                   4106 2 1);
         (1%nat, mkFileInfo "/a" (Some 0%nat) true false false true 4096
                   [] (Some 2%nat) 10 1 0);
         (2%nat, mkFileInfo "." (Some 1%nat) true true false true 0
                   [3%nat] None 10 1 0);
         (3%nat, mkFileInfo "x" (Some 2%nat) false false false true 10
                   [] None 0 0 0) ])
    [].

(** As [grouped], but the file 3 is not among the children of the dot
    entry 2 it names as its parent. *)
Definition unlinked : World :=
  mkWorld false (Some 0%nat) [] false true
    (list_to_map
       [ (0%nat, mkFileInfo "" None true false false true 0 [1%nat] None
                   4096 1 1);
         (1%nat, mkFileInfo "/a" (Some 0%nat) true false false true 4096
                   [] (Some 2%nat) 0 0 0);
         (2%nat, mkFileInfo "." (Some 1%nat) true true false true 0
                   [] None 0 0 0);
         (3%nat, mkFileInfo "x" (Some 2%nat) false false false true 10
                   [] None 0 0 0) ])
    [].

(** A file system that, like lstat(2), takes doubled slashes for one, and
    in which the file [/a/x] exists (12 bytes). *)
Definition lstat_lenient (u : string) : option StatInfo :=
  if String.eqb (cleanPath u) "/a/x" then Some (mkStatInfo false 12)
  else lstat (cleanPath u).

(** A tree whose root was deleted. *)
Definition rootless : World :=
  mkWorld true None [LocalDirReadJob 1%nat] false true ∅
    [deletingChild 0%nat; childDeleted].

End Sample.

(** ** Further vocabulary for runs *)

(** An action keeps the schedule when no run of it changes the job queue or
    the busy flag; it keeps the store when no run of it changes an object. *)
Definition keeps_schedule {A} (m : M A) : Prop :=
  ∀ w a w', m w = Some (a, w') →
            _jobQueue w' = _jobQueue w ∧ _isBusy w' = _isBusy w.

Definition keeps_store {A} (m : M A) : Prop :=
  ∀ w a w', m w = Some (a, w') → store w' = store w.

(** The store [refresh] hands to [stat] after it has unlinked and destroyed
    the old subtree [e] of [parent]. *)
Definition after_removal (e parent : ptr) (s : Store) : Store :=
  delete_object e
    (DirInfo_deletingChild parent e (alter (setExcluded false) e s)).

(** The tree [startReading] leaves when it runs on the root [r] with the
    queue [q], the store [s] and the signals [tr], nothing being left to
    clear; [b] tells whether the busy flag it set is still set. *)
Definition started (baseName : string → string)
  (lstat : string → option StatInfo) (b : bool) (r : ptr)
  (q : list DirReadJob) (s : Store) (tr : list Signal) (url : string)
  : World :=
  match lstat url with
  | None =>
      mkWorld false (Some r) q false true s
        (tr ++ [startingReading; finished; finalizeLocal None])
  | Some st =>
      let n := fresh (dom s) in
      mkWorld (st_isDir st && b) (Some r)
        (q ++ (if st_isDir st then [LocalDirReadJob n] else []))
        false true
        (snd (DirTree.LocalDirReadJob_stat baseName lstat url (Some r) s))
        (tr ++ [startingReading; childAdded n; readJobFinished (Some r)]
            ++ (if st_isDir st then [] else [finished]))
  end.

(** ** ProcessOutput.h: printing a process *)

Module ProcessOutput.

(** What the stream operator reads of a [QProcess]: the program and its
    argument list. *)
Record QProcess := mkQProcess {
  program : string;
  arguments : list string
}.

(** [QStringList::join] *)
Fixpoint join (sep : string) (l : list string) : string :=
  match l with
  | [] => ""
  | [x] => x
  | x :: l' => x ++ sep ++ join sep l'
  end.

(** The stream operator [<<] for a [QTextStream] and a pointer to a
    [QProcess]; the stream is the text written to it so far, a null pointer
    is [None]. *)
Definition print_process (stream : string) (process : option QProcess)
  : string :=
  match process with
  | Some p =>
      let args := arguments p in
      let args := match args with
                  | [] => args
                  | _ :: rest => rest        (* removeFirst: the "-c" *)
                  end in
      match args with
      | [] => stream ++ program p
      | _ => stream ++ join " " args
      end
  | None => stream ++ "<NULL QProcess>"
  end.

End ProcessOutput.

(** * Properties *)

(** ** Reasoning about runs *)

Lemma bind_Some {A B} (m : M A) (k : A → M B) w b w' :
  bind m k w = Some (b, w') ↔ ∃ a w1, m w = Some (a, w1) ∧ k a w1 = Some (b, w').
Proof.
  unfold bind. split.
  - destruct (m w) as [[a w1]|] eqn:E; [|discriminate]. eauto.
  - intros (a & w1 & -> & H). exact H.
Qed.

Lemma deref_Some p w fi w' :
  deref p w = Some (fi, w') ↔ store w !! p = Some fi ∧ w' = w.
Proof.
  unfold deref. destruct (store w !! p); split.
  - intros [= -> ->]. done.
  - intros [[= ->] ->]. done.
  - discriminate.
  - intros [? _]. discriminate.
Qed.

Lemma deref_live p w fi : store w !! p = Some fi → deref p w = Some (fi, w).
Proof. intros H. by apply deref_Some. Qed.

Lemma ret_Some {A} (a b : A) w w' :
  ret a w = Some (b, w') ↔ b = a ∧ w' = w.
Proof. unfold ret. split; [intros [= -> ->] | intros [-> ->]]; done. Qed.

Lemma getW_Some {A} (f : World → A) b w w' :
  getW f w = Some (b, w') ↔ b = f w ∧ w' = w.
Proof. unfold getW. split; [intros [= <- <-] | intros [-> ->]]; done. Qed.

(** Unfolds a run one step at a time; the intermediate results and worlds
    are replaced by what they are. *)
Ltac run_step :=
  match goal with
  | H : bind _ _ _ = Some _ |- _ =>
      apply bind_Some in H; destruct H as (? & ? & ? & H)
  | H : deref _ ?w = Some (_, ?w') |- _ =>
      apply deref_Some in H; destruct H as [? ?]; try subst w'
  | H : ret _ _ = Some (?b, ?w') |- _ =>
      apply ret_Some in H; destruct H as [? ?]; try subst w'; try subst b
  | H : getW _ _ = Some (?b, ?w') |- _ =>
      apply getW_Some in H; destruct H as [? ?]; try subst w'; try subst b
  | H : crash _ = Some _ |- _ => discriminate H
  end.

Lemma bind_run {A B} (m : M A) (k : A → M B) w a w1 :
  m w = Some (a, w1) → bind m k w = k a w1.
Proof. unfold bind. intros ->. done. Qed.

(** Runs the first action of a sequence: a primitive by computation, a
    dereference by a lookup among the hypotheses. *)
Ltac prim :=
  first [ apply deref_live; cbn; eassumption
        | reflexivity ].

Lemma bind_assoc {A B C} (m : M A) (f : A → M B) (g : B → M C) w :
  bind (bind m f) g w = bind m (λ x, bind (f x) g) w.
Proof. unfold bind. destruct (m w) as [[a w1]|]; done. Qed.

Ltac step_by tac := rewrite ?bind_assoc; erewrite bind_run by tac; cbn.
Ltac step := step_by prim.

(** ** isTopLevel *)

(** C8.  [isTopLevel (e)] answers true if and only if [e] is not null, the
    parent of [e] exists, and that parent has no parent itself: [e] is a
    direct child of the synthetic root.  The query leaves the tree as it
    is. *)
Theorem isTopLevel_iff (item : option ptr) (w : World) :
  (DirTree.isTopLevel item w = Some (true, w) ↔
   ∃ e fi p pfi, item = Some e ∧ store w !! e = Some fi ∧
                 _parent fi = Some p ∧ store w !! p = Some pfi ∧
                 _parent pfi = None)
  ∧ (∀ b w', DirTree.isTopLevel item w = Some (b, w') → w' = w).
Proof.
  split; [split|].
  - unfold DirTree.isTopLevel. destruct item as [e|]; [|discriminate].
    intros H. run_step. run_step.
    destruct (_parent x) as [p|] eqn:Hp; [|discriminate].
    run_step. run_step. run_step.
    destruct (_parent x0) eqn:Hpp; [discriminate|].
    exists e, x, p, x0. done.
  - intros (e & fi & p & pfi & -> & He & Hp & Hpf & Hpp).
    unfold DirTree.isTopLevel, bind.
    rewrite (deref_live _ _ _ He), Hp, (deref_live _ _ _ Hpf), Hpp. done.
  - intros b w'. unfold DirTree.isTopLevel. destruct item as [e|].
    + intros H. run_step. run_step.
      destruct (_parent x); [|by run_step].
      run_step. run_step. by run_step.
    + intros H. by run_step.
Qed.

(** ** childAddedNotify *)

(** C9.  Announcing a new child raises [childAdded] for the child and then,
    when the child carries an overflow grouping (dot entry), [childAdded]
    for that grouping: two notifications in this order, and exactly one for
    a child without grouping.  Nothing else changes. *)
Theorem childAddedNotify_order (newChild : ptr) (fi : FileInfo) (w : World) :
  store w !! newChild = Some fi →
  ∃ w', DirTree.childAddedNotify newChild w = Some (tt, w')
      ∧ emitted w' = emitted w ++ childAdded newChild ::
                       match _dotEntry fi with
                       | Some d => [childAdded d]
                       | None => []
                       end
      ∧ store w' = store w ∧ _isBusy w' = _isBusy w
      ∧ _root w' = _root w ∧ _jobQueue w' = _jobQueue w.
Proof.
  intros H. unfold DirTree.childAddedNotify, bind, emit, deref. simpl.
  rewrite H. destruct (_dotEntry fi); simpl.
  - eexists; split; [reflexivity|]. simpl. by rewrite <- app_assoc.
  - eexists; split; [reflexivity|]. done.
Qed.

Lemma childAddedNotify_order_witness :
  ∃ w', DirTree.childAddedNotify 1%nat Sample.grouped = Some (tt, w')
      ∧ emitted w' = [childAdded 1%nat; childAdded 2%nat].
Proof.
  destruct (childAddedNotify_order 1%nat
              (mkFileInfo "/a" (Some 0%nat) true false false true 4096
                 [] (Some 2%nat) 10 1 0) Sample.grouped)
    as (w' & Hrun & Hem & _).
  - vm_compute. reflexivity.
  - exists w'. split; [exact Hrun | exact Hem].
Defined.

(** ** abortReading *)

(** C3.  [abortReading] is idempotent.  On an empty job queue it does
    nothing at all; on a queue with jobs it empties the queue, leaves the
    tree not busy and raises exactly one [aborted]; aborting again right
    away changes nothing more. *)
Theorem abortReading_idempotent (w : World) :
  DirTree.abortReading w =
    Some (tt, match _jobQueue w with
              | [] => w
              | _ :: _ =>
                  mkWorld false (_root w) [] (_crossFileSystems w)
                    (_enableLocalDirReader w) (store w)
                    (emitted w ++ [aborted])
              end)
  ∧ (DirTree.abortReading ;; DirTree.abortReading) w = DirTree.abortReading w.
Proof.
  unfold DirTree.abortReading, bind, getW. simpl.
  destruct w as [b r q c l s tr]; simpl. destruct q; simpl; done.
Qed.

(** ** firstToplevel and url *)

Lemma append_sep_nonempty (a b : string) : (a ++ "/" ++ b)%string ≠ "".
Proof. destruct a; discriminate. Qed.

(** The url of a live entry that has a parent and is no overflow grouping
    is never empty. *)
Lemma FileInfo_url_nonempty (s : Store) (e : ptr) (fi : FileInfo) :
  s !! e = Some fi → is_Some (_parent fi) → _isDotEntry fi = false →
  FileInfo_url s e ≠ "".
Proof.
  intros He [q Hq] Hdot. unfold FileInfo_url. simpl.
  rewrite He, Hq, Hdot. apply append_sep_nonempty.
Qed.

(** C10.  The queries are total on a tree without root and on a tree whose
    root has no children: [firstToplevel] answers null and [url] the empty
    string.  [url] answers the empty string exactly when [firstToplevel]
    answers null (in a tree whose first toplevel entry, if any, has its
    back-reference to the root and is no overflow grouping), and neither
    query changes the tree. *)
Theorem queries_on_empty_tree (w : World) :
  (∀ r rfi e fi, _root w = Some r → store w !! r = Some rfi →
                 firstChild rfi = Some e → store w !! e = Some fi →
                 is_Some (_parent fi) ∧ _isDotEntry fi = false) →
  ((_root w = None ∨
    ∃ r rfi, _root w = Some r ∧ store w !! r = Some rfi ∧ _children rfi = []) →
   DirTree.firstToplevel w = Some (None, w) ∧ DirTree.url w = Some ("", w))
  ∧ (DirTree.url w = Some ("", w) ↔ DirTree.firstToplevel w = Some (None, w))
  ∧ (∀ x w', DirTree.firstToplevel w = Some (x, w') → w' = w)
  ∧ (∀ u w', DirTree.url w = Some (u, w') → w' = w).
Proof.
  intros Hwf.
  unfold DirTree.url, DirTree.firstToplevel, url_of, bind, getW, deref, ret.
  destruct (_root w) as [r|] eqn:Hr.
  2:{ repeat split; intros; congruence. }
  destruct (store w !! r) as [rfi|] eqn:Hrfi.
  2:{ repeat split; intros; try congruence;
        match goal with
        | H : _ ∨ _ |- _ => destruct H as [? | (? & ? & ? & ? & ?)]; congruence
        end. }
  destruct (firstChild rfi) as [e|] eqn:Hfc.
  2:{ repeat split; intros; congruence. }
  assert (Hch : _children rfi ≠ []).
  { unfold firstChild in Hfc. intros Hch. rewrite Hch in Hfc. done. }
  destruct (store w !! e) as [fi|] eqn:He.
  - destruct (Hwf r rfi e fi eq_refl Hrfi Hfc He) as [Hp Hd].
    pose proof (FileInfo_url_nonempty (store w) e fi He Hp Hd) as Hne.
    repeat split; intros; try congruence;
      match goal with
      | H : _ ∨ _ |- _ => destruct H as [? | (? & ? & ? & ? & ?)]; congruence
      end.
  - repeat split; intros; try congruence;
      match goal with
      | H : _ ∨ _ |- _ => destruct H as [? | (? & ? & ? & ? & ?)]; congruence
      end.
Qed.

Lemma queries_on_empty_tree_witness :
  DirTree.url Sample.scanned = Some ("", Sample.scanned)
  ↔ DirTree.firstToplevel Sample.scanned = Some (None, Sample.scanned).
Proof.
  refine (proj1 (proj2 (queries_on_empty_tree Sample.scanned _))).
  intros r rfi e fi Hr Hrfi Hfc He.
  vm_compute in Hr. injection Hr as <-.
  vm_compute in Hrfi. injection Hrfi as <-.
  vm_compute in Hfc. injection Hfc as <-.
  vm_compute in He. injection He as <-.
  split; [eexists; reflexivity | reflexivity].
Defined.

(** ** startReading *)

Lemma DirInfo_clear_lookup (s : Store) (p : ptr) (fi : FileInfo) :
  s !! p = Some fi →
  ∃ fi', DirInfo_clear p s !! p = Some fi' ∧ _children fi' = []
         ∧ _dotEntry fi' = None ∧ _parent fi' = _parent fi.
Proof.
  intros H. unfold DirInfo_clear. rewrite H. eexists.
  rewrite lookup_insert_eq. done.
Qed.

Lemma hasChildren_false (fi : FileInfo) :
  hasChildren fi = false → _children fi = [] ∧ _dotEntry fi = None.
Proof.
  unfold hasChildren. destruct (_children fi), (_dotEntry fi); done.
Qed.

Lemma clear_run (w : World) (r : ptr) (rfi : FileInfo) :
  _root w = Some r → store w !! r = Some rfi →
  DirTree.clear w =
    Some (tt, mkWorld false (Some r) [] (_crossFileSystems w)
                (_enableLocalDirReader w) (DirInfo_clear r (store w))
                (emitted w ++ [clearing])).
Proof.
  intros Hr Hrfi. destruct w as [b rt q c l s tr]. cbn in Hr, Hrfi. subst rt.
  unfold DirTree.clear. repeat step. reflexivity.
Qed.

Lemma stat_failure_run baseName (lstat : string → option StatInfo)
  (url : string) (parent : option ptr) (w : World) :
  lstat url = None → DirTree.stat baseName lstat url parent w = Some (None, w).
Proof.
  intros H. destruct w. unfold DirTree.stat, DirTree.LocalDirReadJob_stat.
  rewrite H. reflexivity.
Qed.

(** C1.  When the initial [stat] of the path fails, [startReading] gives the
    failure to its observers and starts nothing: the tree is left without
    toplevel entry and not busy, [finished] and then [finalizeLocal] with a
    null directory are raised, no job is added to the queue and no
    [childAdded] is raised. *)
Theorem startReading_stat_failure
  (absoluteFilePath baseName : string → string)
  (lstat : string → option StatInfo)
  (rawUrl : string) (w : World) (r : ptr) (rfi : FileInfo) :
  _root w = Some r → store w !! r = Some rfi →
  lstat (absoluteFilePath rawUrl) = None →
  ∃ w', DirTree.startReading absoluteFilePath baseName lstat rawUrl w
          = Some (tt, w')
      ∧ DirTree.firstToplevel w' = Some (None, w')
      ∧ _isBusy w' = false
      ∧ emitted w' = emitted w
                     ++ (if hasChildren rfi then [clearing] else [])
                     ++ [startingReading; finished; finalizeLocal None]
      ∧ (∀ j, j ∈ _jobQueue w' → j ∈ _jobQueue w)
      ∧ _root w' = Some r.
Proof.
  intros Hr Hrfi Hstat.
  destruct w as [b rt q c l s tr]. cbn in Hr, Hrfi. subst rt.
  unfold DirTree.startReading, DirTree.deref_root.
  repeat step.
  destruct (hasChildren rfi) eqn:Hhc.
  - step_by ltac:(eapply clear_run; cbn; [reflexivity | eassumption]).
    repeat step. step_by ltac:(apply stat_failure_run; assumption).
    repeat step.
    eexists. split; [reflexivity|]. cbn.
    destruct (DirInfo_clear_lookup _ _ _ Hrfi) as (fi' & Hfi' & Hch & _).
    repeat split.
    + step. unfold firstChild. rewrite Hch. done.
    + rewrite <- !app_assoc. done.
    + intros j Hj. by apply elem_of_nil in Hj.
  - repeat step. step_by ltac:(apply stat_failure_run; assumption).
    repeat step.
    eexists. split; [reflexivity|]. cbn.
    destruct (hasChildren_false _ Hhc) as [Hch _].
    repeat split.
    + step. unfold firstChild. rewrite Hch. done.
    + rewrite <- !app_assoc. done.
    + done.
Qed.

Lemma startReading_stat_failure_witness :
  ∃ w', Sample.startReading "/nowhere" Sample.scanned = Some (tt, w')
      ∧ DirTree.firstToplevel w' = Some (None, w')
      ∧ _isBusy w' = false
      ∧ emitted w' = [clearing; startingReading; finished; finalizeLocal None]
      ∧ (∀ j, j ∈ _jobQueue w' → j ∈ _jobQueue Sample.scanned)
      ∧ _root w' = Some 0%nat.
Proof.
  apply (startReading_stat_failure Sample.absoluteFilePath Sample.baseName
           Sample.lstat "/nowhere" Sample.scanned 0%nat
           (mkFileInfo "" None true false false true 0 [1%nat] None 4106 2 1)).
  - reflexivity.
  - vm_compute. reflexivity.
  - vm_compute. reflexivity.
Defined.

Lemma propagate_shape (n : nat) (d : Summary) (q : option ptr) (s : Store)
  (p : ptr) :
  shape <$> (propagate n d q s !! p) = shape <$> (s !! p).
Proof.
  revert q s. induction n as [|n IH]; intros [q|] s; simpl; try done.
  destruct (s !! q) as [fi|] eqn:E; [|done].
  rewrite IH. destruct (decide (q = p)) as [->|Hne].
  - rewrite lookup_insert_eq, E. done.
  - rewrite lookup_insert_ne; done.
Qed.

Lemma propagate_None (n : nat) (d : Summary) (q : option ptr) (s : Store)
  (p : ptr) :
  propagate n d q s !! p = None ↔ s !! p = None.
Proof.
  pose proof (propagate_shape n d q s p) as H.
  destruct (propagate n d q s !! p), (s !! p); simpl in H; done.
Qed.

Lemma insertChild_new_entry (s : Store) (r item : ptr) (nfi : FileInfo) :
  r ≠ item →
  shape <$> (DirInfo_insertChild r item (<[item := nfi]> s) !! item)
  = Some (shape nfi).
Proof.
  intros Hne. unfold DirInfo_insertChild.
  destruct (<[item := nfi]> s !! r) as [rfi|]; [|by rewrite lookup_insert_eq].
  destruct (decide (item ∈ _children rfi)); [by rewrite lookup_insert_eq|].
  rewrite propagate_shape, lookup_insert_ne, lookup_insert_eq; done.
Qed.

Lemma stat_success_run baseName (lstat : string → option StatInfo)
  (url : string) (parent : option ptr) (st : StatInfo) (w : World) :
  lstat url = Some st →
  DirTree.stat baseName lstat url parent w =
    Some (Some (fresh (dom (store w))),
          mkWorld (_isBusy w) (_root w) (_jobQueue w) (_crossFileSystems w)
            (_enableLocalDirReader w)
            (snd (DirTree.LocalDirReadJob_stat baseName lstat url parent
                    (store w)))
            (emitted w)).
Proof.
  intros H. unfold DirTree.stat, DirTree.LocalDirReadJob_stat.
  rewrite H. reflexivity.
Qed.

(** The entry [stat] creates under a live parent: it is live afterwards, is
    a directory exactly when the path is one, and has no overflow
    grouping. *)
Lemma stat_success_entry baseName (lstat : string → option StatInfo)
  (url : string) (r : ptr) (rfi : FileInfo) (st : StatInfo) (s : Store) :
  lstat url = Some st → s !! r = Some rfi →
  ∃ ifi, snd (DirTree.LocalDirReadJob_stat baseName lstat url (Some r) s)
           !! fresh (dom s) = Some ifi
       ∧ _parent ifi = Some r ∧ _isDirInfo ifi = st_isDir st
       ∧ _dotEntry ifi = None.
Proof.
  intros Hst Hr. unfold DirTree.LocalDirReadJob_stat. rewrite Hst. cbn.
  assert (Hne : r ≠ fresh (dom s)).
  { intros ->. apply (is_fresh (dom s)). apply elem_of_dom. eauto. }
  pose proof (insertChild_new_entry s r (fresh (dom s))
                (DirTree.newFileInfo baseName url st (Some r) s) Hne) as H.
  destruct (DirInfo_insertChild r _ _ !! _) as [ifi|]; [|discriminate].
  exists ifi. split; [done|]. cbn in H. injection H as _ Hp Hd _ _ _ _ _ Hdot.
  done.
Qed.

(** What [startReading] does when the initial [stat] succeeds. *)
Lemma startReading_stat_success
  (absoluteFilePath baseName : string → string)
  (lstat : string → option StatInfo)
  (rawUrl : string) (w : World) (r : ptr) (rfi : FileInfo) (st : StatInfo) :
  _root w = Some r → store w !! r = Some rfi →
  lstat (absoluteFilePath rawUrl) = Some st →
  ∃ item w', DirTree.startReading absoluteFilePath baseName lstat rawUrl w
               = Some (tt, w')
      ∧ emitted w' = emitted w
                     ++ (if hasChildren rfi then [clearing] else [])
                     ++ [startingReading; childAdded item;
                         readJobFinished (Some r)]
                     ++ (if st_isDir st then [] else [finished])
      ∧ _jobQueue w' = (if hasChildren rfi then [] else _jobQueue w)
                       ++ (if st_isDir st then [LocalDirReadJob item] else [])
      ∧ _isBusy w' = (st_isDir st && negb (hasChildren rfi))%bool
      ∧ (∃ ifi, store w' !! item = Some ifi ∧ _parent ifi = Some r
                ∧ _isDirInfo ifi = st_isDir st)
      ∧ _root w' = Some r.
Proof.
  intros Hr Hrfi Hstat.
  destruct w as [b rt q c l s tr]. cbn in Hr, Hrfi. subst rt.
  unfold DirTree.startReading, DirTree.deref_root.
  repeat step.
  destruct (hasChildren rfi) eqn:Hhc.
  - step_by ltac:(eapply clear_run; cbn; [reflexivity | eassumption]).
    repeat step.
    step_by ltac:(eapply stat_success_run; eassumption).
    destruct (DirInfo_clear_lookup _ _ _ Hrfi) as (rfi' & Hrfi' & _).
    destruct (stat_success_entry baseName lstat _ r rfi' st _ Hstat Hrfi')
      as (ifi & Hifi & Hp & Hd & Hdot).
    unfold DirTree.childAddedNotify. repeat step. rewrite Hdot.
    repeat step. rewrite Hd. unfold DirTree.addJob.
    destruct (st_isDir st); repeat step;
      (eexists _, _; split; [reflexivity|]; cbn;
       rewrite <- ?app_assoc; repeat split; eauto).
  - repeat step.
    step_by ltac:(eapply stat_success_run; eassumption).
    destruct (stat_success_entry baseName lstat _ r rfi st _ Hstat Hrfi)
      as (ifi & Hifi & Hp & Hd & Hdot).
    unfold DirTree.childAddedNotify. repeat step. rewrite Hdot.
    repeat step. rewrite Hd. unfold DirTree.addJob.
    destruct (st_isDir st); repeat step;
      (eexists _, _; split; [reflexivity|]; cbn;
       rewrite <- ?app_assoc, ?app_nil_r; repeat split; eauto).
Qed.

(** C2.  Scanning a directory over a tree that already holds a scan: the
    root-level entry is created and announced and exactly one read job is
    queued, but the tree is left with [_isBusy] false.  [startReading] sets
    [_isBusy] and then calls [clear ()], which resets it.  The input is the
    finished scan of [/a] and the directory [/b]. *)
Theorem startReading_rescan_not_busy :
  ∃ w', Sample.startReading "/b" Sample.scanned = Some (tt, w')
      ∧ emitted w' = [clearing; startingReading; childAdded 1%nat;
                      readJobFinished (Some 0%nat)]
      ∧ _jobQueue w' = [LocalDirReadJob 1%nat]
      ∧ (_isDirInfo <$> store w' !! 1%nat) = Some true
      ∧ _isBusy w' = false.
Proof.
  eexists. split; [vm_compute; reflexivity|]. cbn.
  repeat split.
Qed.

(** ** refresh *)

Section Refresh.

Variable absoluteFilePath cleanPath baseName : string → string.
Variable lstat : string → option StatInfo.

Let startReading := DirTree.startReading absoluteFilePath baseName lstat.
Let refresh := DirTree.refresh absoluteFilePath cleanPath baseName lstat.
Let rescan := startScan_again absoluteFilePath cleanPath baseName lstat.

Lemma startReading_path (u1 u2 : string) (w : World) :
  absoluteFilePath u1 = absoluteFilePath u2 →
  startReading u1 w = startReading u2 w.
Proof.
  intros H. unfold startReading, DirTree.startReading. rewrite H. done.
Qed.

Lemma firstToplevel_root (w : World) (top : ptr) :
  DirTree.firstToplevel w = Some (Some top, w) → is_Some (_root w).
Proof.
  unfold DirTree.firstToplevel, bind, getW.
  destruct (_root w); [eauto | discriminate].
Qed.

(** C4.  In a tree with a toplevel entry, [refresh] of a null entry or of
    the root (an entry without parent) is [startReading] on the path of the
    existing toplevel entry: both runs end in the same tree, busy flag, job
    queue and sequence of signals, or fail alike.  The path is the url of
    the toplevel entry after [QDir::cleanPath]; it may be given uncleaned
    whenever both spellings name the same absolute file path. *)
Theorem refresh_all_is_startReading (subtree : option ptr) (w : World)
  (top : ptr) :
  DirTree.firstToplevel w = Some (Some top, w) →
  is_Some (store w !! top) →
  (subtree = None ∨
   ∃ e efi, subtree = Some e ∧ store w !! e = Some efi ∧ _parent efi = None) →
  refresh subtree w = rescan top w
  ∧ (absoluteFilePath (cleanPath (FileInfo_url (store w) top))
     = absoluteFilePath (FileInfo_url (store w) top) →
     refresh subtree w = startReading (FileInfo_url (store w) top) w).
Proof.
  intros Hft [tfi Htop] Hsub.
  destruct (firstToplevel_root _ _ Hft) as [r Hr].
  assert (Hrun : refresh subtree w = rescan top w).
  { unfold refresh, DirTree.refresh, rescan, startScan_again.
    erewrite bind_run by (unfold getW; rewrite Hr; reflexivity).
    destruct Hsub as [-> | (e & efi & -> & He & Hp)].
    - erewrite bind_run by reflexivity.
      erewrite bind_run by exact Hft.
      unfold url_of. repeat step. reflexivity.
    - rewrite bind_assoc. erewrite bind_run by prim.
      erewrite bind_run by reflexivity. rewrite Hp.
      erewrite bind_run by exact Hft.
      unfold url_of. repeat step. reflexivity. }
  split; [exact Hrun|].
  intros Hpath. rewrite Hrun.
  unfold rescan, startScan_again.
  by apply startReading_path.
Qed.

End Refresh.

Lemma refresh_all_is_startReading_witness :
  Sample.refresh None Sample.scanned
  = startScan_again Sample.absoluteFilePath Sample.cleanPath Sample.baseName
      Sample.lstat 1%nat Sample.scanned.
Proof.
  refine (proj1 (refresh_all_is_startReading Sample.absoluteFilePath
                   Sample.cleanPath Sample.baseName Sample.lstat None
                   Sample.scanned 1%nat _ _ _)).
  - vm_compute. reflexivity.
  - eexists. vm_compute. reflexivity.
  - left. reflexivity.
Defined.

(** ** Unlinking and destroying *)

Lemma deletingChild_None (p c : ptr) (s : Store) (x : ptr) :
  DirInfo_deletingChild p c s !! x = None ↔ s !! x = None.
Proof.
  unfold DirInfo_deletingChild. destruct (s !! p) as [pfi|] eqn:Hp; [|done].
  rewrite propagate_None. destruct (decide (p = x)) as [->|Hne].
  - rewrite lookup_insert_eq, Hp. done.
  - by rewrite lookup_insert_ne.
Qed.

Lemma deletingChild_live (p c : ptr) (s : Store) (x : ptr) (fi : FileInfo) :
  s !! x = Some fi → ∃ fi', DirInfo_deletingChild p c s !! x = Some fi'.
Proof.
  intros H. destruct (DirInfo_deletingChild p c s !! x) as [fi'|] eqn:E.
  - eauto.
  - apply deletingChild_None in E. congruence.
Qed.

(** Destruction only removes objects. *)
Lemma destroy_None (n : nat) (p : ptr) (s : Store) (x : ptr) :
  s !! x = None → destroy n p s !! x = None.
Proof.
  revert p s. induction n as [|n IH]; intros p s H; simpl.
  - destruct (decide (p = x)) as [->|Hne].
    + apply lookup_delete_eq.
    + by rewrite lookup_delete_ne.
  - destruct (s !! p) as [fi|] eqn:Hp; [|done].
    assert (Hd : delete p s !! x = None).
    { destruct (decide (p = x)) as [->|Hne].
      - apply lookup_delete_eq.
      - by rewrite lookup_delete_ne. }
    revert Hd. generalize (delete p s).
    induction (_children fi ++ option_list (_dotEntry fi)) as [|c l IHl];
      intros s0 Hs0; simpl; [done|].
    apply IH. by apply IHl.
Qed.

Lemma destroy_self (n : nat) (p : ptr) (s : Store) : destroy n p s !! p = None.
Proof.
  destruct n as [|n]; simpl.
  - apply lookup_delete_eq.
  - destruct (s !! p) as [fi|] eqn:Hp; [|done].
    assert (Hd : delete p s !! p = None) by apply lookup_delete_eq.
    revert Hd. generalize (delete p s).
    induction (_children fi ++ option_list (_dotEntry fi)) as [|c l IHl];
      intros s0 Hs0; simpl; [done|].
    apply destroy_None. by apply IHl.
Qed.

Lemma delete_object_self (p : ptr) (s : Store) : delete_object p s !! p = None.
Proof. apply destroy_self. Qed.

Lemma hasChildren_elem (fi : FileInfo) (c : ptr) :
  c ∈ _children fi → hasChildren fi = true.
Proof.
  unfold hasChildren. destruct (_children fi); [|done].
  intros H. by apply elem_of_nil in H.
Qed.

(** What [refresh] does to an entry that is gone from disk: the old entry
    is announced, unlinked and destroyed, and then nothing but
    [_isBusy = true] and [startingReading]: no job, no [finished]. *)
Lemma refresh_vanished
  (absoluteFilePath cleanPath baseName : string → string)
  (lstat : string → option StatInfo)
  (w : World) (e p : ptr) (efi pfi : FileInfo) :
  is_Some (_root w) →
  store w !! e = Some efi → _parent efi = Some p →
  store w !! p = Some pfi →
  lstat (FileInfo_url (store w) e) = None →
  ∃ w', DirTree.refresh absoluteFilePath cleanPath baseName lstat (Some e) w
          = Some (tt, w')
      ∧ emitted w' = emitted w ++ [deletingChild e; childDeleted;
                                   startingReading]
      ∧ _jobQueue w' = _jobQueue w
      ∧ store w' !! e = None
      ∧ _isBusy w' = true.
Proof.
  intros [r Hr] He Hp Hpf Hstat.
  destruct w as [b rt q c l s tr]. cbn in Hr, He, Hpf, Hstat. subst rt.
  unfold DirTree.refresh, url_of. repeat step. rewrite Hp.
  repeat step.
  assert (Hp1 : ∃ pfi', alter (setExcluded false) e s !! p = Some pfi').
  { rewrite lookup_alter. case_decide; [rewrite He | rewrite Hpf];
      simpl; eauto. }
  destruct Hp1 as [pfi' Hp1]. repeat step.
  assert (He1 : ∃ efi', DirInfo_deletingChild p e
                          (alter (setExcluded false) e s) !! e = Some efi').
  { eapply deletingChild_live. rewrite lookup_alter_eq, He. done. }
  destruct He1 as [efi' He1]. unfold delete_ptr. repeat step.
  step_by ltac:(apply stat_failure_run; assumption).
  eexists. split; [reflexivity|]. cbn.
  rewrite <- !app_assoc. repeat split. apply delete_object_self.
Qed.

(** C5.  [refresh] of an entry that is gone from disk removes the old
    subtree with its notifications and decrements the aggregates of its
    ancestors, but it leaves the tree busy with nothing queued and nothing
    announced that could end the busy state: the failure of [stat] is not
    handled in this branch.  The input is the finished scan of [/a] whose
    file [x] has vanished. *)
Theorem refresh_vanished_stays_busy :
  ∃ w', Sample.refresh (Some 2%nat) Sample.scanned = Some (tt, w')
      ∧ emitted w' = [deletingChild 2%nat; childDeleted; startingReading]
      ∧ store w' !! 2%nat = None
      ∧ (_children <$> store w' !! 1%nat) = Some []
      ∧ (_totalSize <$> store w' !! 1%nat) = Some 0
      ∧ (_totalSize <$> store w' !! 0%nat) = Some 4096
      ∧ (_totalItems <$> store w' !! 0%nat) = Some 1
      ∧ _jobQueue w' = []
      ∧ _isBusy w' = true.
Proof.
  eexists. split; [vm_compute; reflexivity|]. cbn.
  repeat split.
Qed.

(** ** deleteSubtree *)

(** Deleting an entry that is linked under its parent never takes the
    branch for an emptied overflow grouping: the parent is asked for its
    children before the entry is unlinked. *)
Lemma deleteSubtree_linked (w : World) (e p : ptr) (efi pfi : FileInfo) :
  store w !! e = Some efi → _parent efi = Some p →
  store w !! p = Some pfi → e ∈ _children pfi →
  ∃ w', DirTree.deleteSubtree e w = Some (tt, w')
      ∧ emitted w' = emitted w ++ [deletingChild e; childDeleted]
      ∧ store w' = delete_object e (DirInfo_deletingChild p e (store w)).
Proof.
  intros He Hp Hpf Hin.
  destruct w as [b rt q c l s tr]. cbn in He, Hpf.
  destruct (deletingChild_live p e s e efi He) as [efi' He'].
  pose proof (hasChildren_elem _ _ Hin) as Hhc.
  unfold DirTree.deleteSubtree, DirTree.deletingChildNotify, delete_ptr.
  repeat step. rewrite Hp.
  destruct (decide (rt = Some e)) as [->|Hne].
  - repeat step. rewrite Hhc, andb_false_r. repeat step.
    destruct (decide (None = Some e)); [done|]. repeat step.
    eexists. split; [reflexivity|]. cbn. rewrite <- !app_assoc. done.
  - repeat step. rewrite Hhc, andb_false_r. repeat step.
    destruct (decide (rt = Some e)); [done|]. repeat step.
    eexists. split; [reflexivity|]. cbn. rewrite <- !app_assoc. done.
Qed.

(** C6.  Deleting the last file of an overflow grouping whose directory has
    finished reading: the file is announced, unlinked (the aggregates of its
    ancestors go down by its 10 bytes and one item) and destroyed, but the
    emptied grouping is neither announced nor removed; it stays the dot
    entry of its directory.  The input is the finished scan of [/a] whose
    only file sits in the overflow grouping. *)
Theorem deleteSubtree_keeps_empty_dot_entry :
  ∃ w', DirTree.deleteSubtree 3%nat Sample.grouped = Some (tt, w')
      ∧ emitted w' = [deletingChild 3%nat; childDeleted]
      ∧ store w' !! 3%nat = None
      ∧ (_totalSize <$> store w' !! 1%nat) = Some 0
      ∧ (_totalItems <$> store w' !! 0%nat) = Some 1
      ∧ (_isFinished <$> store w' !! 1%nat) = Some true
      ∧ (_dotEntry <$> store w' !! 1%nat) = Some (Some 2%nat)
      ∧ (_isDotEntry <$> store w' !! 2%nat) = Some true
      ∧ (_children <$> store w' !! 2%nat) = Some [].
Proof.
  eexists. split; [vm_compute; reflexivity|]. cbn.
  repeat split.
Qed.

(** ** The root pointer *)

Create HintDb root discriminated.

Lemma keeps_ret {A} (a : A) : keeps_root (ret a).
Proof. intros w b w' H. apply ret_Some in H. destruct H as [_ ->]. done. Qed.

Lemma keeps_crash {A} : keeps_root (@crash A).
Proof. intros w b w' H. discriminate H. Qed.

Lemma keeps_bind {A B} (m : M A) (k : A → M B) :
  keeps_root m → (∀ a, keeps_root (k a)) → keeps_root (bind m k).
Proof.
  intros Hm Hk w b w' H. apply bind_Some in H as (a & w1 & H1 & H2).
  rewrite (Hk _ _ _ _ H2). exact (Hm _ _ _ H1).
Qed.

Lemma keeps_getW {A} (f : World → A) : keeps_root (getW f).
Proof. intros w b w' H. apply getW_Some in H. destruct H as [_ ->]. done. Qed.

Lemma keeps_set_isBusy b : keeps_root (set_isBusy b).
Proof. intros w a w' H. unfold set_isBusy in H. injection H as _ <-. done. Qed.

Lemma keeps_modify_jobQueue f : keeps_root (modify_jobQueue f).
Proof. intros w a w' H. unfold modify_jobQueue in H. injection H as _ <-. done. Qed.

Lemma keeps_set_config c l : keeps_root (set_config c l).
Proof. intros w a w' H. unfold set_config in H. injection H as _ <-. done. Qed.

Lemma keeps_modify_store f : keeps_root (modify_store f).
Proof. intros w a w' H. unfold modify_store in H. injection H as _ <-. done. Qed.

Lemma keeps_emit sig : keeps_root (emit sig).
Proof. intros w a w' H. unfold emit in H. injection H as _ <-. done. Qed.

Lemma keeps_deref p : keeps_root (deref p).
Proof. intros w a w' H. apply deref_Some in H. destruct H as [_ ->]. done. Qed.

Lemma keeps_stat baseName lstat url parent :
  keeps_root (DirTree.stat baseName lstat url parent).
Proof.
  intros w a w'. unfold DirTree.stat.
  destruct (DirTree.LocalDirReadJob_stat _ _ _ _ _). intros H.
  injection H as _ <-. done.
Qed.

#[global] Hint Resolve keeps_ret keeps_crash keeps_getW keeps_set_isBusy
  keeps_modify_jobQueue keeps_set_config keeps_modify_store keeps_emit
  keeps_deref keeps_stat : root.

(** Walks through a method body: sequencing, then the branches. *)
Ltac keeps :=
  repeat first
    [ apply keeps_bind; [|intros ?]
    | progress auto with root
    | match goal with
      | |- keeps_root (match ?x with _ => _ end) => destruct x
      end ].

Lemma keeps_delete_ptr p : keeps_root (delete_ptr p).
Proof. unfold delete_ptr. keeps. Qed.

Lemma keeps_url_of p : keeps_root (url_of p).
Proof. unfold url_of. keeps. Qed.

Lemma keeps_firstToplevel : keeps_root DirTree.firstToplevel.
Proof. unfold DirTree.firstToplevel. keeps. Qed.

Lemma keeps_childAddedNotify p : keeps_root (DirTree.childAddedNotify p).
Proof. unfold DirTree.childAddedNotify. keeps. Qed.

Lemma keeps_addJob j : keeps_root (DirTree.addJob j).
Proof. unfold DirTree.addJob. keeps. Qed.

Lemma keeps_CHECK_PTR {A} (p : option A) : keeps_root (DirTree.CHECK_PTR p).
Proof. unfold DirTree.CHECK_PTR. keeps. Qed.

Lemma keeps_readConfig : keeps_root DirTree.readConfig.
Proof. unfold DirTree.readConfig. keeps. Qed.

Lemma keeps_deref_root : keeps_root DirTree.deref_root.
Proof. unfold DirTree.deref_root. keeps. Qed.

#[global] Hint Resolve keeps_delete_ptr keeps_url_of keeps_firstToplevel
  keeps_childAddedNotify keeps_addJob keeps_readConfig keeps_deref_root
  keeps_CHECK_PTR : root.

Lemma keeps_clear : keeps_root DirTree.clear.
Proof. unfold DirTree.clear. keeps. Qed.

Lemma keeps_abortReading : keeps_root DirTree.abortReading.
Proof. unfold DirTree.abortReading. keeps. Qed.

#[global] Hint Resolve keeps_clear keeps_abortReading : root.

Lemma keeps_startReading absoluteFilePath baseName lstat rawUrl :
  keeps_root (DirTree.startReading absoluteFilePath baseName lstat rawUrl).
Proof.
  unfold DirTree.startReading. keeps.
Qed.

#[global] Hint Resolve keeps_startReading : root.

Lemma keeps_refresh absoluteFilePath cleanPath baseName lstat subtree :
  keeps_root
    (DirTree.refresh absoluteFilePath cleanPath baseName lstat subtree).
Proof. unfold DirTree.refresh. keeps. Qed.

Lemma keeps_may_drop {A} (m : M A) : keeps_root m → may_drop_root m.
Proof. intros H w a w' Hrun. left. eauto. Qed.

Lemma may_drop_bind {A B} (m : M A) (k : A → M B) :
  may_drop_root m → (∀ a, may_drop_root (k a)) → may_drop_root (bind m k).
Proof.
  intros Hm Hk w b w' H. apply bind_Some in H as (a & w1 & H1 & H2).
  destruct (Hk _ _ _ _ H2) as [-> | ->]; [|by right].
  exact (Hm _ _ _ H1).
Qed.

Lemma may_drop_set_root_None : may_drop_root (set_root None).
Proof. intros w a w' H. unfold set_root in H. injection H as _ <-. by right. Qed.

Ltac may_drop :=
  repeat first
    [ apply may_drop_bind; [|intros ?]
    | apply may_drop_set_root_None
    | apply keeps_may_drop; solve [auto with root]
    | match goal with
      | |- may_drop_root (match ?x with _ => _ end) => destruct x
      end ].

Lemma may_drop_deleteSubtree e : may_drop_root (DirTree.deleteSubtree e).
Proof.
  unfold DirTree.deleteSubtree, DirTree.deletingChildNotify. may_drop.
Qed.

Lemma bind_None {A B} (m : M A) (k : A → M B) w :
  m w = None → bind m k w = None.
Proof. unfold bind. intros ->. done. Qed.

Lemma deref_dead p w : store w !! p = None → deref p w = None.
Proof. unfold deref. intros ->. done. Qed.

(** A run that dereferences a dead pointer next has no result. *)
Ltac dead :=
  rewrite ?bind_assoc;
  erewrite bind_None by (apply deref_dead; cbn; eassumption);
  discriminate.

(** [deleteSubtree] of an entry other than the root keeps the root of a tree
    whose root has no parent. *)
Lemma deleteSubtree_keeps_root (w w' : World) (e r : ptr) :
  _root w = Some r → e ≠ r →
  (∀ rfi, store w !! r = Some rfi → _parent rfi = None) →
  DirTree.deleteSubtree e w = Some (tt, w') → _root w' = Some r.
Proof.
  intros Hr Hne Hpl.
  destruct w as [b rt q c l s tr]. cbn in Hr, Hpl. subst rt.
  unfold DirTree.deleteSubtree, DirTree.deletingChildNotify, delete_ptr.
  destruct (s !! e) as [efi|] eqn:He; [|dead].
  repeat step.
  destruct (decide (Some r = Some e)) as [[= ->]|_]; [done|].
  repeat step.
  destruct (_parent efi) as [p|].
  2:{ repeat step. destruct (decide (Some r = Some e)) as [[= ->]|_]; [done|].
      repeat step. intros [= <-]. done. }
  destruct (s !! p) as [pfi|] eqn:Hp; [|dead].
  destruct (deletingChild_live p e s e efi He) as [efi' He'].
  repeat step.
  destruct (_isDotEntry pfi && negb (hasChildren pfi))%bool.
  - destruct (_parent pfi) as [g|] eqn:Hg.
    + destruct (s !! g) as [gfi|] eqn:Hgf; [|dead].
      repeat step. destruct (_isFinished gfi).
      * repeat step.
        destruct (decide (Some r = Some p)) as [[= ->]|_].
        { rewrite (Hpl _ Hp) in Hg. done. }
        repeat step.
        assert (Hp1 : ∃ pfi', alter (setDotEntry None) g s !! p = Some pfi').
        { rewrite lookup_alter. case_decide; [rewrite Hgf | rewrite Hp];
            simpl; eauto. }
        destruct Hp1 as [pfi' Hp1]. repeat step.
        pose proof (delete_object_self p (alter (setDotEntry None) g s)).
        dead.
      * repeat step.
        destruct (decide (Some r = Some e)) as [[= ->]|_]; [done|].
        repeat step. intros [= <-]. done.
    + repeat step.
      destruct (decide (Some r = Some e)) as [[= ->]|_]; [done|].
      repeat step. intros [= <-]. done.
  - repeat step.
    destruct (decide (Some r = Some e)) as [[= ->]|_]; [done|].
    repeat step. intros [= <-]. done.
Qed.

Lemma deleteSubtree_root_drops (w w' : World) (r : ptr) :
  _root w = Some r →
  DirTree.deleteSubtree r w = Some (tt, w') → _root w' = None.
Proof.
  intros Hr H. unfold DirTree.deleteSubtree in H.
  apply bind_Some in H. destruct H as (sfi & w1 & H1 & H).
  apply deref_Some in H1. destruct H1 as [_ ->].
  apply bind_Some in H. destruct H as ([] & w2 & H2 & H).
  assert (Hw2 : _root w2 = None).
  { revert H2. destruct w as [b rt q c l s tr]. cbn in Hr. subst rt.
    unfold DirTree.deletingChildNotify. repeat step.
    destruct (decide (Some r = Some r)); [|done].
    intros [= <-]. done. }
  match type of H with
  | ?m w2 = _ => assert (Hm : may_drop_root m) by may_drop
  end.
  destruct (Hm _ _ _ H) as [-> | ->]; done.
Qed.

Section RootOfRuns.

Variable absoluteFilePath cleanPath baseName : string → string.
Variable lstat : string → option StatInfo.

Let run_op := run_op absoluteFilePath cleanPath baseName lstat.
Let run_ops := run_ops absoluteFilePath cleanPath baseName lstat.
Let spared := spared absoluteFilePath cleanPath baseName lstat.

Lemma may_drop_run_op (o : Op) : may_drop_root (run_op o).
Proof.
  destruct o; simpl.
  - apply keeps_may_drop, keeps_startReading.
  - apply keeps_may_drop, keeps_refresh.
  - apply may_drop_deleteSubtree.
  - apply keeps_may_drop, keeps_clear.
  - apply keeps_may_drop, keeps_abortReading.
Qed.

(** Once the root is gone, no operation brings one back. *)
Lemma rootless_forever (ops : list Op) (w w' : World) :
  _root w = None → run_ops ops w = Some (tt, w') → _root w' = None.
Proof.
  revert w. induction ops as [|o ops IH]; intros w Hw H.
  - apply ret_Some in H. destruct H as [_ ->]. done.
  - simpl in H. apply bind_Some in H. destruct H as (a & w1 & H1 & H2).
    apply (IH w1); [|exact H2].
    destruct (may_drop_run_op o _ _ _ H1) as [-> | ->]; done.
Qed.

Lemma run_op_spares (o : Op) (w w' : World) :
  spares_root o w → run_op o w = Some (tt, w') → _root w' = _root w.
Proof.
  destruct o as [path|e|e| |]; simpl; intros Hsp H.
  - exact (keeps_startReading _ _ _ _ _ _ _ H).
  - exact (keeps_refresh _ _ _ _ _ _ _ _ H).
  - destruct Hsp as [Hne Hpl]. destruct (_root w) as [r|] eqn:Hr.
    + rewrite <- Hr.
      rewrite (deleteSubtree_keeps_root w w' e r Hr); [done| |by eauto|done].
      intros ->. by apply Hne.
    + destruct (may_drop_deleteSubtree e _ _ _ H) as [-> | ->]; done.
  - exact (keeps_clear _ _ _ H).
  - exact (keeps_abortReading _ _ _ H).
Qed.

(** C7, as the code has it.  A sequence of [startReading], [refresh],
    [clear] and [abortReading] calls, and of [deleteSubtree] calls on entries
    other than the root (of a tree whose root has no parent), leaves the
    tree with the root it had; [deleteSubtree] of the root itself leaves the
    tree without a root. *)
Theorem root_kept_unless_deleted :
  (∀ (ops : list Op) (w w' : World),
     run_ops ops w = Some (tt, w') → spared ops w → _root w' = _root w)
  ∧ (∀ (r : ptr) (w w' : World),
       _root w = Some r →
       run_ops [OpDeleteSubtree r] w = Some (tt, w') → _root w' = None).
Proof.
  split.
  - induction ops as [|o ops IH]; intros w w' H Hsp.
    + apply ret_Some in H. destruct H as [_ ->]. done.
    + simpl in H. apply bind_Some in H. destruct H as ([] & w1 & H1 & H2).
      destruct Hsp as [Ho Hrest].
      rewrite (IH w1 w' H2 (Hrest w1 H1)).
      by apply (run_op_spares o).
  - intros r w w' Hr H. simpl in H.
    apply bind_Some in H. destruct H as ([] & w1 & H1 & H2).
    apply ret_Some in H2. destruct H2 as [_ ->].
    by apply (deleteSubtree_root_drops w w1 r).
Qed.

End RootOfRuns.

Lemma root_kept_unless_deleted_witness :
  ∃ w', Sample.run_ops [OpStartScan "/b"; OpAbort; OpRefresh None;
                        OpDeleteSubtree 1%nat; OpClear] Sample.scanned
          = Some (tt, w')
      ∧ _root w' = _root Sample.scanned.
Proof.
  eexists. split; [vm_compute; reflexivity|].
  apply (proj1 (root_kept_unless_deleted Sample.absoluteFilePath
                  Sample.cleanPath Sample.baseName Sample.lstat)
           [OpStartScan "/b"; OpAbort; OpRefresh None;
            OpDeleteSubtree 1%nat; OpClear] Sample.scanned).
  - vm_compute. reflexivity.
  - split; [exact I|]. intros w1 H1. vm_compute in H1. injection H1 as <-.
    split; [exact I|]. intros w2 H2. vm_compute in H2. injection H2 as <-.
    split; [exact I|]. intros w3 H3. vm_compute in H3. injection H3 as <-.
    split.
    { split; [discriminate|].
      intros r rfi Hr Hrfi. injection Hr as <-.
      vm_compute in Hrfi. injection Hrfi as <-. reflexivity. }
    intros w4 H4. vm_compute in H4. injection H4 as <-.
    split; [exact I|]. intros w5 H5. exact I.
Defined.

(** C7, as stated, fails: [deleteSubtree] of the root of a new tree leaves
    the tree without a root, and no later sequence of operations gives it
    one again. *)
Lemma deleteSubtree_root_leaves_no_root :
  ∃ w', Sample.run_ops [OpDeleteSubtree 0%nat] DirTree.DirTree_new
          = Some (tt, w')
      ∧ _root DirTree.DirTree_new = Some 0%nat
      ∧ _root w' = None
      ∧ ∀ ops w'', Sample.run_ops ops w' = Some (tt, w'') → _root w'' = None.
Proof.
  eexists. split; [vm_compute; reflexivity|].
  split; [reflexivity|]. split; [reflexivity|].
  intros ops w''. by apply rootless_forever.
Qed.

(** * Further properties of DirTree.cpp *)

(** ** Edge cases: no root, no toplevel entry *)

(** X1.  On a tree without root, [refresh] returns at once and changes
    nothing, whatever entry it is given; [clear] empties the job queue and
    resets the busy flag without raising [clearing]; [startReading]
    dereferences the null root and has no result. *)
Theorem rootless_operations
  (absoluteFilePath cleanPath baseName : string → string)
  (lstat : string → option StatInfo) (w : World) :
  _root w = None →
  (∀ subtree,
     DirTree.refresh absoluteFilePath cleanPath baseName lstat subtree w
     = Some (tt, w))
  ∧ DirTree.clear w
    = Some (tt, mkWorld false None [] (_crossFileSystems w)
                  (_enableLocalDirReader w) (store w) (emitted w))
  ∧ (∀ rawUrl,
       DirTree.startReading absoluteFilePath baseName lstat rawUrl w = None).
Proof.
  intros Hr. destruct w as [b rt q c l s tr]. cbn in Hr. subst rt.
  repeat split.
Qed.

Lemma rootless_operations_witness :
  Sample.refresh (Some 1%nat) Sample.rootless = Some (tt, Sample.rootless)
  ∧ Sample.startReading "/a" Sample.rootless = None.
Proof.
  destruct (rootless_operations Sample.absoluteFilePath Sample.cleanPath
              Sample.baseName Sample.lstat Sample.rootless eq_refl)
    as (Hrefresh & _ & Hstart).
  split; [apply Hrefresh | apply Hstart].
Defined.

(** X2.  [refresh] of everything (a null entry, or an entry without parent)
    on a tree whose root has no children has no result: it calls [url ()] on
    the null pointer [firstToplevel ()] answers. *)
Theorem refresh_all_without_toplevel
  (absoluteFilePath cleanPath baseName : string → string)
  (lstat : string → option StatInfo)
  (subtree : option ptr) (w : World) (r : ptr) (rfi : FileInfo) :
  _root w = Some r → store w !! r = Some rfi → _children rfi = [] →
  (subtree = None ∨
   ∃ e efi, subtree = Some e ∧ store w !! e = Some efi ∧ _parent efi = None) →
  DirTree.refresh absoluteFilePath cleanPath baseName lstat subtree w = None.
Proof.
  intros Hr Hrfi Hch Hsub.
  destruct w as [b rt q c l s tr]. cbn in Hr, Hrfi. subst rt.
  unfold DirTree.refresh, DirTree.firstToplevel.
  destruct Hsub as [-> | (e & efi & -> & He & Hp)].
  - repeat step. unfold firstChild. rewrite Hch. reflexivity.
  - cbn in He. repeat step. rewrite Hp. repeat step.
    unfold firstChild. rewrite Hch. reflexivity.
Qed.

Lemma refresh_all_without_toplevel_witness :
  Sample.refresh None DirTree.DirTree_new = None.
Proof.
  apply (refresh_all_without_toplevel Sample.absoluteFilePath
           Sample.cleanPath Sample.baseName Sample.lstat None
           DirTree.DirTree_new 0%nat DirTree.newRoot).
  - reflexivity.
  - vm_compute. reflexivity.
  - reflexivity.
  - left. reflexivity.
Defined.

(** X3.  When [deleteSubtree] does find the parent to be a dot entry
    without children under a directory that has finished reading, it
    deletes that dot entry and then calls [deletingChild] on it: the run
    uses the deleted object and has no result. *)
Theorem deleteSubtree_uses_deleted_dot_entry
  (w : World) (e p g : ptr) (efi pfi gfi : FileInfo) :
  store w !! e = Some efi → _parent efi = Some p →
  store w !! p = Some pfi → _isDotEntry pfi = true →
  hasChildren pfi = false → _parent pfi = Some g →
  store w !! g = Some gfi → _isFinished gfi = true →
  DirTree.deleteSubtree e w = None.
Proof.
  intros He Hp Hpf Hdot Hhc Hg Hgf Hfin.
  destruct w as [b rt q c l s tr]. cbn in He, Hpf, Hgf.
  assert (Hp1 : ∃ pfi', alter (setDotEntry None) g s !! p = Some pfi').
  { rewrite lookup_alter. case_decide; [rewrite Hgf | rewrite Hpf];
      simpl; eauto. }
  destruct Hp1 as [pfi' Hp1].
  pose proof (delete_object_self p (alter (setDotEntry None) g s)) as Hgone.
  unfold DirTree.deleteSubtree, DirTree.deletingChildNotify, delete_ptr.
  repeat step. rewrite Hp.
  destruct (decide (rt = Some e)); repeat step;
    rewrite Hdot, Hhc; cbn; repeat step; rewrite Hg; repeat step;
    rewrite Hfin; repeat step.
  - destruct (decide (None = Some p)); [done|]. repeat step.
    rewrite ?bind_assoc.
    erewrite bind_None; [done|]. apply deref_dead. exact Hgone.
  - destruct (decide (rt = Some p)); repeat step;
      rewrite ?bind_assoc;
      (erewrite bind_None; [done|]); apply deref_dead; exact Hgone.
Qed.

Lemma deleteSubtree_uses_deleted_dot_entry_witness :
  DirTree.deleteSubtree 3%nat Sample.unlinked = None.
Proof.
  apply (deleteSubtree_uses_deleted_dot_entry Sample.unlinked 3%nat 2%nat
           1%nat
           (mkFileInfo "x" (Some 2%nat) false false false true 10
              [] None 0 0 0)
           (mkFileInfo "." (Some 1%nat) true true false true 0
              [] None 0 0 0)
           (mkFileInfo "/a" (Some 0%nat) true false false true 4096
              [] (Some 2%nat) 0 0 0));
    try reflexivity; vm_compute; reflexivity.
Defined.

(** ** What deleteSubtree leaves alone *)

Lemma schedule_ret {A} (a : A) : keeps_schedule (ret a).
Proof. intros w b w' H. apply ret_Some in H. destruct H as [_ ->]. done. Qed.

Lemma schedule_bind {A B} (m : M A) (k : A → M B) :
  keeps_schedule m → (∀ a, keeps_schedule (k a)) → keeps_schedule (bind m k).
Proof.
  intros Hm Hk w b w' H. apply bind_Some in H. destruct H as (a & w1 & H1 & H2).
  destruct (Hk _ _ _ _ H2) as [-> ->]. exact (Hm _ _ _ H1).
Qed.

Lemma schedule_getW {A} (f : World → A) : keeps_schedule (getW f).
Proof. intros w b w' H. apply getW_Some in H. destruct H as [_ ->]. done. Qed.

Lemma schedule_set_root r : keeps_schedule (set_root r).
Proof. intros w a w' H. unfold set_root in H. injection H as _ <-. done. Qed.

Lemma schedule_modify_store f : keeps_schedule (modify_store f).
Proof. intros w a w' H. unfold modify_store in H. injection H as _ <-. done. Qed.

Lemma schedule_emit sig : keeps_schedule (emit sig).
Proof. intros w a w' H. unfold emit in H. injection H as _ <-. done. Qed.

Lemma schedule_deref p : keeps_schedule (deref p).
Proof. intros w a w' H. apply deref_Some in H. destruct H as [_ ->]. done. Qed.

Create HintDb schedule discriminated.

#[global] Hint Resolve schedule_ret schedule_getW schedule_set_root
  schedule_modify_store schedule_emit schedule_deref : schedule.

Ltac schedule :=
  repeat first
    [ apply schedule_bind; [|intros ?]
    | progress auto with schedule
    | match goal with
      | |- keeps_schedule (match ?x with _ => _ end) => destruct x
      end ].

Lemma schedule_deleteSubtree e : keeps_schedule (DirTree.deleteSubtree e).
Proof.
  unfold DirTree.deleteSubtree, DirTree.deletingChildNotify, delete_ptr.
  schedule.
Qed.

Lemma store_ret {A} (a : A) : keeps_store (ret a).
Proof. intros w b w' H. apply ret_Some in H. destruct H as [_ ->]. done. Qed.

Lemma store_bind {A B} (m : M A) (k : A → M B) :
  keeps_store m → (∀ a, keeps_store (k a)) → keeps_store (bind m k).
Proof.
  intros Hm Hk w b w' H. apply bind_Some in H. destruct H as (a & w1 & H1 & H2).
  rewrite (Hk _ _ _ _ H2). exact (Hm _ _ _ H1).
Qed.

Lemma store_getW {A} (f : World → A) : keeps_store (getW f).
Proof. intros w b w' H. apply getW_Some in H. destruct H as [_ ->]. done. Qed.

Lemma store_set_root r : keeps_store (set_root r).
Proof. intros w a w' H. unfold set_root in H. injection H as _ <-. done. Qed.

Lemma store_emit sig : keeps_store (emit sig).
Proof. intros w a w' H. unfold emit in H. injection H as _ <-. done. Qed.

(** X4.  Whenever [deleteSubtree] returns, the entry is gone from the
    tree, and neither the busy flag nor the job queue has changed: read
    jobs that were queued for the deleted subtree stay queued. *)
Theorem deleteSubtree_destroys_keeps_jobs (e : ptr) (w w' : World) :
  DirTree.deleteSubtree e w = Some (tt, w') →
  store w' !! e = None
  ∧ _jobQueue w' = _jobQueue w
  ∧ _isBusy w' = _isBusy w.
Proof.
  intros H. split; [|exact (schedule_deleteSubtree e _ _ _ H)].
  unfold DirTree.deleteSubtree in H.
  apply bind_Some in H. destruct H as (sfi & w1 & _ & H).
  apply bind_Some in H. destruct H as (? & w2 & _ & H).
  apply bind_Some in H. destruct H as (? & w3 & _ & H).
  apply bind_Some in H. destruct H as (? & w4 & _ & H).
  apply bind_Some in H. destruct H as (? & w5 & Hdel & H).
  assert (Hgone : store w5 !! e = None).
  { unfold delete_ptr in Hdel.
    apply bind_Some in Hdel. destruct Hdel as (? & w6 & Hd & Hdel).
    apply deref_Some in Hd. destruct Hd as [_ ->].
    unfold modify_store in Hdel. injection Hdel as Hdel. subst w5. cbn.
    apply delete_object_self. }
  match type of H with
  | ?m w5 = _ => assert (Hm : keeps_store m)
  end.
  { apply store_bind; [apply store_getW|]. intros r.
    apply store_bind; [|intros ?; apply store_emit].
    destruct (decide (r = Some e)); [apply store_set_root | apply store_ret]. }
  rewrite (Hm _ _ _ H). exact Hgone.
Qed.

Lemma deleteSubtree_destroys_keeps_jobs_witness :
  ∃ w', DirTree.deleteSubtree 1%nat
          (mkWorld true (Some 0%nat) [LocalDirReadJob 1%nat] false true
             (store Sample.scanned) [])
        = Some (tt, w')
      ∧ store w' !! 1%nat = None
      ∧ _jobQueue w' = [LocalDirReadJob 1%nat]
      ∧ _isBusy w' = true.
Proof.
  eexists. split; [vm_compute; reflexivity|].
  apply (deleteSubtree_destroys_keeps_jobs 1%nat
           (mkWorld true (Some 0%nat) [LocalDirReadJob 1%nat] false true
              (store Sample.scanned) [])).
  vm_compute. reflexivity.
Defined.

(** ** refresh of a subtree that is still on disk *)

Lemma insertChild_None (p c : ptr) (s : Store) (x : ptr) :
  DirInfo_insertChild p c s !! x = None ↔ s !! x = None.
Proof.
  unfold DirInfo_insertChild. destruct (s !! p) as [pfi|] eqn:Hp; [|done].
  destruct (decide (c ∈ _children pfi)); [done|].
  rewrite propagate_None. destruct (decide (p = x)) as [->|Hne].
  - rewrite lookup_insert_eq, Hp. done.
  - by rewrite lookup_insert_ne.
Qed.

Lemma insertChild_shape (p c : ptr) (s : Store) (x : ptr) :
  p ≠ x →
  shape <$> (DirInfo_insertChild p c s !! x) = shape <$> (s !! x).
Proof.
  intros Hne. unfold DirInfo_insertChild.
  destruct (s !! p) as [pfi|]; [|done].
  destruct (decide (c ∈ _children pfi)); [done|].
  by rewrite propagate_shape, lookup_insert_ne.
Qed.

Lemma live_not_fresh (s : Store) (x : ptr) (fi : FileInfo) :
  s !! x = Some fi → x ≠ fresh (dom s).
Proof.
  intros Hx ->. apply (is_fresh (dom s)). apply elem_of_dom. eauto.
Qed.

Lemma stat_keeps_live baseName (lstat : string → option StatInfo)
  (url : string) (parent : option ptr) (s : Store) (x : ptr) (fi : FileInfo) :
  s !! x = Some fi →
  ∃ fi', snd (DirTree.LocalDirReadJob_stat baseName lstat url parent s) !! x
         = Some fi'.
Proof.
  intros Hx. unfold DirTree.LocalDirReadJob_stat.
  destruct (lstat url) as [st|]; [|eauto]. cbn.
  assert (Hne : fresh (dom s) ≠ x).
  { intros <-. apply (is_fresh (dom s)). apply elem_of_dom. eauto. }
  assert (Hin : <[fresh (dom s) := DirTree.newFileInfo baseName url st parent s]>
                  s !! x = Some fi) by (by rewrite lookup_insert_ne).
  destruct parent as [q|]; [|eauto].
  destruct (DirInfo_insertChild q _ _ !! x) as [fi'|] eqn:E; [eauto|].
  apply insertChild_None in E. congruence.
Qed.

(** X5.  [refresh] of an entry with a parent, when [stat] finds its path
    again: the old subtree is announced, unlinked and destroyed, a new entry
    is created under the same parent and announced; for a directory exactly
    one read job is added and the tree is left busy, for a plain file the
    tree is left not busy and [finished] is raised.  Jobs already queued are
    kept.  The parent must outlive the removal of the subtree. *)
Theorem refresh_subtree_found
  (absoluteFilePath cleanPath baseName : string → string)
  (lstat : string → option StatInfo)
  (w : World) (e p : ptr) (efi pfi : FileInfo) (st : StatInfo) :
  is_Some (_root w) →
  store w !! e = Some efi → _parent efi = Some p →
  store w !! p = Some pfi →
  lstat (FileInfo_url (store w) e) = Some st →
  is_Some (after_removal e p (store w) !! p) →
  ∃ n w', DirTree.refresh absoluteFilePath cleanPath baseName lstat (Some e) w
            = Some (tt, w')
      ∧ emitted w' = emitted w
                     ++ [deletingChild e; childDeleted; startingReading;
                         childAdded n]
                     ++ (if st_isDir st then [] else [finished])
      ∧ _jobQueue w' = _jobQueue w
                       ++ (if st_isDir st then [LocalDirReadJob n] else [])
      ∧ _isBusy w' = st_isDir st
      ∧ (∃ nfi, store w' !! n = Some nfi ∧ _parent nfi = Some p
                ∧ _isDirInfo nfi = st_isDir st).
Proof.
  intros [r Hr] He Hp Hpf Hstat [pfi3 Hsurv].
  destruct w as [b rt q c l s tr]. cbn in Hr, He, Hpf, Hstat, Hsurv. subst rt.
  unfold after_removal in Hsurv.
  unfold DirTree.refresh, url_of. repeat step. rewrite Hp.
  repeat step.
  assert (Hp1 : ∃ pfi', alter (setExcluded false) e s !! p = Some pfi').
  { rewrite lookup_alter. case_decide; [rewrite He | rewrite Hpf];
      simpl; eauto. }
  destruct Hp1 as [pfi' Hp1]. repeat step.
  assert (He1 : ∃ efi', DirInfo_deletingChild p e
                          (alter (setExcluded false) e s) !! e = Some efi').
  { eapply deletingChild_live. rewrite lookup_alter_eq, He. done. }
  destruct He1 as [efi' He1]. unfold delete_ptr. repeat step.
  step_by ltac:(eapply stat_success_run; eassumption).
  destruct (stat_success_entry baseName lstat _ p pfi3 st _ Hstat Hsurv)
    as (ifi & Hifi & Hip & Hid & Hidot).
  destruct (stat_keeps_live baseName lstat (FileInfo_url s e) (Some p) _ p
              pfi3 Hsurv) as [pfi4 Hp4].
  pose proof (live_not_fresh _ _ _ Hsurv) as Hnp.
  pose proof (insertChild_shape p
                (fresh (dom (delete_object e (DirInfo_deletingChild p e
                               (alter (setExcluded false) e s)))))
                (snd (DirTree.LocalDirReadJob_stat baseName lstat
                        (FileInfo_url s e) (Some p)
                        (delete_object e (DirInfo_deletingChild p e
                           (alter (setExcluded false) e s)))))
                _ Hnp) as Hsh.
  rewrite Hifi in Hsh.
  match type of Hsh with
  | shape <$> ?o = _ => destruct o as [nfi|] eqn:Hn; [|discriminate]
  end.
  cbn in Hsh. injection Hsh as _ Hnpar Hndir _ _ _ _ _ Hndot.
  repeat step.
  unfold DirTree.childAddedNotify. repeat step. rewrite ?Hndot, ?Hidot.
  repeat step. rewrite ?Hndir, ?Hid. unfold DirTree.addJob.
  destruct (st_isDir st); repeat step;
    (eexists _, _; split; [reflexivity|]; cbn;
     rewrite <- ?app_assoc, ?app_nil_r; repeat split;
     exists nfi; repeat split; congruence).
Qed.

Lemma refresh_subtree_found_witness :
  ∃ n w', DirTree.refresh Sample.absoluteFilePath Sample.cleanPath
            Sample.baseName Sample.lstat_lenient (Some 2%nat) Sample.scanned
          = Some (tt, w')
      ∧ emitted w' = [deletingChild 2%nat; childDeleted; startingReading;
                      childAdded n; finished]
      ∧ _jobQueue w' = []
      ∧ _isBusy w' = false
      ∧ (∃ nfi, store w' !! n = Some nfi ∧ _parent nfi = Some 1%nat
                ∧ _isDirInfo nfi = false).
Proof.
  apply (refresh_subtree_found Sample.absoluteFilePath Sample.cleanPath
           Sample.baseName Sample.lstat_lenient Sample.scanned 2%nat 1%nat
           (mkFileInfo "x" (Some 1%nat) false false false true 10
              [] None 0 0 0)
           (mkFileInfo "/a" (Some 0%nat) true false false true 4096
              [2%nat] None 10 1 0)
           (mkStatInfo false 12)).
  - eexists. reflexivity.
  - vm_compute. reflexivity.
  - reflexivity.
  - vm_compute. reflexivity.
  - vm_compute. reflexivity.
  - eexists. vm_compute. reflexivity.
Defined.

(** ** startReading, in full *)

(** What [startReading] does on a tree with a root, case by case. *)
Lemma startReading_explicit
  (absoluteFilePath baseName : string → string)
  (lstat : string → option StatInfo)
  (rawUrl : string) (w : World) (r : ptr) (rfi : FileInfo) :
  _root w = Some r → store w !! r = Some rfi →
  DirTree.startReading absoluteFilePath baseName lstat rawUrl w
  = Some (tt, if hasChildren rfi
              then started baseName lstat false r [] (DirInfo_clear r (store w))
                     (emitted w ++ [clearing]) (absoluteFilePath rawUrl)
              else started baseName lstat true r (_jobQueue w) (store w)
                     (emitted w) (absoluteFilePath rawUrl)).
Proof.
  intros Hr Hrfi.
  destruct w as [b rt q c l s tr]. cbn in Hr, Hrfi. subst rt. cbn.
  unfold DirTree.startReading, DirTree.deref_root, started.
  repeat step.
  destruct (hasChildren rfi) eqn:Hhc.
  - step_by ltac:(eapply clear_run; cbn; [reflexivity | eassumption]).
    repeat step.
    destruct (lstat (absoluteFilePath rawUrl)) as [st|] eqn:Hstat.
    + step_by ltac:(eapply stat_success_run; eassumption).
      destruct (DirInfo_clear_lookup _ _ _ Hrfi) as (rfi' & Hrfi' & _).
      destruct (stat_success_entry baseName lstat _ r rfi' st _ Hstat Hrfi')
        as (ifi & Hifi & Hp & Hd & Hdot).
      unfold DirTree.childAddedNotify, DirTree.CHECK_PTR. repeat step.
      rewrite Hdot. repeat step. rewrite Hd. unfold DirTree.addJob.
      destruct (st_isDir st); repeat step; unfold emit; cbn;
        rewrite <- ?app_assoc, ?app_nil_r; reflexivity.
    + step_by ltac:(apply stat_failure_run; assumption).
      unfold DirTree.CHECK_PTR. repeat step. unfold emit. cbn.
      rewrite <- ?app_assoc. reflexivity.
  - repeat step.
    destruct (lstat (absoluteFilePath rawUrl)) as [st|] eqn:Hstat.
    + step_by ltac:(eapply stat_success_run; eassumption).
      destruct (stat_success_entry baseName lstat _ r rfi st _ Hstat Hrfi)
        as (ifi & Hifi & Hp & Hd & Hdot).
      unfold DirTree.childAddedNotify, DirTree.CHECK_PTR. repeat step.
      rewrite Hdot. repeat step. rewrite Hd. unfold DirTree.addJob.
      destruct (st_isDir st); repeat step; unfold emit; cbn;
        rewrite <- ?app_assoc, ?app_nil_r; reflexivity.
    + step_by ltac:(apply stat_failure_run; assumption).
      unfold DirTree.CHECK_PTR. repeat step. unfold emit. cbn.
      rewrite <- ?app_assoc. reflexivity.
Qed.

Section Scans.

Variable absoluteFilePath baseName : string → string.
Variable lstat : string → option StatInfo.

Let startReading := DirTree.startReading absoluteFilePath baseName lstat.

(** X6.  On a tree whose root has children, calling [clear] before
    [startReading] ends in the same tree, job queue and signals as
    [startReading] alone, which clears the tree itself; only the busy flag
    differs: [startReading] alone always ends not busy, after [clear] it
    ends busy exactly when the path is a directory. *)
Theorem clear_before_startReading (rawUrl : string) (w : World) (r : ptr)
  (rfi : FileInfo) :
  _root w = Some r → store w !! r = Some rfi → hasChildren rfi = true →
  ∃ w1 w2,
    startReading rawUrl w = Some (tt, w1)
    ∧ (DirTree.clear ;; startReading rawUrl) w = Some (tt, w2)
    ∧ store w2 = store w1 ∧ emitted w2 = emitted w1
    ∧ _jobQueue w2 = _jobQueue w1 ∧ _root w2 = _root w1
    ∧ _isBusy w1 = false
    ∧ _isBusy w2 = match lstat (absoluteFilePath rawUrl) with
                   | Some st => st_isDir st
                   | None => false
                   end.
Proof.
  intros Hr Hrfi Hhc.
  destruct (DirInfo_clear_lookup _ _ _ Hrfi) as (rfi' & Hrfi' & Hch & Hdot & _).
  assert (Hhc' : hasChildren rfi' = false).
  { unfold hasChildren. rewrite Hch, Hdot. done. }
  eexists _, _. split; [|split].
  - unfold startReading. rewrite (startReading_explicit _ _ _ _ _ r rfi Hr Hrfi).
    rewrite Hhc. reflexivity.
  - erewrite bind_run by (eapply clear_run; eassumption).
    unfold startReading.
    erewrite (startReading_explicit _ _ _ _ _ r rfi');
      [|reflexivity|exact Hrfi'].
    rewrite Hhc'. reflexivity.
  - unfold started. cbn.
    destruct (lstat (absoluteFilePath rawUrl)) as [st|]; cbn;
      rewrite ?andb_false_r, ?andb_true_r; done.
Qed.

(** X7.  [startReading] cancels the jobs that are pending only when the
    root has children (through [clear]); on a tree without content they
    stay queued.  It adds at most one job, and adds one exactly when the
    path is a directory. *)
Theorem startReading_pending_jobs (rawUrl : string) (w : World) (r : ptr)
  (rfi : FileInfo) :
  _root w = Some r → store w !! r = Some rfi →
  ∃ w' added,
    startReading rawUrl w = Some (tt, w')
    ∧ _jobQueue w'
      = ((if hasChildren rfi then [] else _jobQueue w) ++ added)%list
    ∧ (List.length added ≤ 1)%nat
    ∧ (added ≠ [] ↔ ∃ st, lstat (absoluteFilePath rawUrl) = Some st
                          ∧ st_isDir st = true).
Proof.
  intros Hr Hrfi. unfold startReading.
  rewrite (startReading_explicit _ _ _ _ _ r rfi Hr Hrfi).
  unfold started.
  destruct (lstat (absoluteFilePath rawUrl)) as [st|] eqn:Hst.
  - destruct (st_isDir st) eqn:Hd.
    + destruct (hasChildren rfi);
        (eexists _, [_]; split; [reflexivity|]; cbn; repeat split;
         [lia | eauto | done]).
    + destruct (hasChildren rfi);
        (eexists _, []; split; [reflexivity|]; cbn;
         rewrite ?app_nil_r; repeat split;
         [lia | done | intros (st' & [= <-] & Hd'); congruence]).
  - destruct (hasChildren rfi);
      (eexists _, []; split; [reflexivity|]; cbn;
       rewrite ?app_nil_r; repeat split;
       [lia | done | intros (st' & [=] & _)]).
Qed.

End Scans.

Lemma clear_before_startReading_witness :
  ∃ w1 w2,
    Sample.startReading "/b" Sample.scanned = Some (tt, w1)
    ∧ (DirTree.clear ;; Sample.startReading "/b") Sample.scanned
      = Some (tt, w2)
    ∧ store w2 = store w1 ∧ emitted w2 = emitted w1
    ∧ _jobQueue w2 = _jobQueue w1 ∧ _root w2 = _root w1
    ∧ _isBusy w1 = false
    ∧ _isBusy w2 = true.
Proof.
  apply (clear_before_startReading Sample.absoluteFilePath Sample.baseName
           Sample.lstat "/b" Sample.scanned 0%nat
           (mkFileInfo "" None true false false true 0 [1%nat] None 4106 2 1)).
  - reflexivity.
  - vm_compute. reflexivity.
  - reflexivity.
Defined.

Lemma startReading_pending_jobs_witness :
  ∃ w' added,
    Sample.startReading "/a"
      (mkWorld true (Some 0%nat) [CacheReadJob None "cache"] false true
         (store DirTree.DirTree_new) [startingReading])
    = Some (tt, w')
    ∧ _jobQueue w' = ([CacheReadJob None "cache"] ++ added)%list
    ∧ (List.length added ≤ 1)%nat
    ∧ (added ≠ [] ↔ ∃ st, Sample.lstat "/a" = Some st ∧ st_isDir st = true).
Proof.
  apply (startReading_pending_jobs Sample.absoluteFilePath Sample.baseName
           Sample.lstat "/a"
           (mkWorld true (Some 0%nat) [CacheReadJob None "cache"] false true
              (store DirTree.DirTree_new) [startingReading])
           0%nat DirTree.newRoot).
  - reflexivity.
  - vm_compute. reflexivity.
Defined.

(** ** The entry startReading creates *)

Lemma propagate_parent (n : nat) (d : Summary) (q : option ptr) (s : Store)
  (x : ptr) :
  _parent <$> (propagate n d q s !! x) = _parent <$> (s !! x).
Proof.
  revert q s. induction n as [|n IH]; intros [q|] s; simpl; try done.
  destruct (s !! q) as [fi|] eqn:E; [|done].
  rewrite IH. destruct (decide (q = x)) as [->|Hne].
  - rewrite lookup_insert_eq, E. done.
  - rewrite lookup_insert_ne; done.
Qed.

Lemma insertChild_parent (p c : ptr) (s : Store) (x : ptr) :
  _parent <$> (DirInfo_insertChild p c s !! x) = _parent <$> (s !! x).
Proof.
  unfold DirInfo_insertChild. destruct (s !! p) as [pfi|] eqn:Hp; [|done].
  destruct (decide (c ∈ _children pfi)); [done|].
  rewrite propagate_parent. destruct (decide (p = x)) as [->|Hne].
  - rewrite lookup_insert_eq, Hp. done.
  - by rewrite lookup_insert_ne.
Qed.

Lemma stat_parent_of_old baseName (lstat : string → option StatInfo)
  (url : string) (r : ptr) (s : Store) (x : ptr) (fi : FileInfo) :
  s !! x = Some fi →
  ∃ fi', snd (DirTree.LocalDirReadJob_stat baseName lstat url (Some r) s) !! x
         = Some fi'
       ∧ _parent fi' = _parent fi.
Proof.
  intros Hx. unfold DirTree.LocalDirReadJob_stat.
  destruct (lstat url) as [st|]; [|eauto]. cbn.
  pose proof (live_not_fresh _ _ _ Hx) as Hne.
  pose proof (insertChild_parent r (fresh (dom s))
                (<[fresh (dom s) :=
                     DirTree.newFileInfo baseName url st (Some r) s]> s) x)
    as H.
  rewrite lookup_insert_ne, Hx in H by done.
  destruct (DirInfo_insertChild r _ _ !! x) as [fi'|]; [|discriminate].
  cbn in H. injection H as H. eauto.
Qed.

Lemma started_toplevel baseName (lstat : string → option StatInfo)
  (b : bool) (r : ptr) (q : list DirReadJob) (s0 : Store) (tr : list Signal)
  (url : string) (rfi0 : FileInfo) (st : StatInfo) :
  s0 !! r = Some rfi0 → _parent rfi0 = None → lstat url = Some st →
  ∃ n, childAdded n ∈ emitted (started baseName lstat b r q s0 tr url)
     ∧ DirTree.isTopLevel (Some n) (started baseName lstat b r q s0 tr url)
       = Some (true, started baseName lstat b r q s0 tr url)
     ∧ DirTree.isTopLevel (Some r) (started baseName lstat b r q s0 tr url)
       = Some (false, started baseName lstat b r q s0 tr url).
Proof.
  intros Hr0 Hpar0 Hst. unfold started. rewrite Hst.
  destruct (stat_success_entry baseName lstat _ r rfi0 st _ Hst Hr0)
    as (ifi & Hifi & Hip & _).
  destruct (stat_parent_of_old baseName lstat url r s0 r rfi0 Hr0)
    as (rfi2 & Hr2 & Hpar2).
  rewrite Hpar0 in Hpar2.
  exists (fresh (dom s0)). split; [|split].
  - cbn. apply elem_of_app. right. set_solver.
  - unfold DirTree.isTopLevel. repeat step. rewrite Hip. repeat step.
    unfold ret. rewrite Hpar2. reflexivity.
  - unfold DirTree.isTopLevel. repeat step. unfold ret. rewrite Hpar2.
    reflexivity.
Qed.

(** X8.  The entry [startReading] creates is a toplevel entry: on a tree
    whose root has no parent, after a successful [stat], [isTopLevel]
    answers true for the new entry and false for the root. *)
Theorem startReading_creates_toplevel
  (absoluteFilePath baseName : string → string)
  (lstat : string → option StatInfo)
  (rawUrl : string) (w : World) (r : ptr) (rfi : FileInfo) (st : StatInfo) :
  _root w = Some r → store w !! r = Some rfi → _parent rfi = None →
  lstat (absoluteFilePath rawUrl) = Some st →
  ∃ n w', DirTree.startReading absoluteFilePath baseName lstat rawUrl w
            = Some (tt, w')
      ∧ childAdded n ∈ emitted w'
      ∧ DirTree.isTopLevel (Some n) w' = Some (true, w')
      ∧ DirTree.isTopLevel (Some r) w' = Some (false, w').
Proof.
  intros Hr Hrfi Hpar Hst.
  rewrite (startReading_explicit _ _ _ _ _ r rfi Hr Hrfi).
  destruct (hasChildren rfi).
  - destruct (DirInfo_clear_lookup _ _ _ Hrfi) as (rfi' & H1 & _ & _ & H2).
    rewrite Hpar in H2.
    destruct (started_toplevel baseName lstat false r []
                (DirInfo_clear r (store w)) (emitted w ++ [clearing])
                (absoluteFilePath rawUrl) rfi' st H1 H2 Hst) as (n & Hn).
    eauto.
  - destruct (started_toplevel baseName lstat true r (_jobQueue w)
                (store w) (emitted w)
                (absoluteFilePath rawUrl) rfi st Hrfi Hpar Hst) as (n & Hn).
    eauto.
Qed.

Lemma startReading_creates_toplevel_witness :
  ∃ n w', Sample.startReading "/b" Sample.scanned = Some (tt, w')
      ∧ childAdded n ∈ emitted w'
      ∧ DirTree.isTopLevel (Some n) w' = Some (true, w')
      ∧ DirTree.isTopLevel (Some 0%nat) w' = Some (false, w').
Proof.
  apply (startReading_creates_toplevel Sample.absoluteFilePath
           Sample.baseName Sample.lstat "/b" Sample.scanned 0%nat
           (mkFileInfo "" None true false false true 0 [1%nat] None 4106 2 1)
           (mkStatInfo true 4096)).
  - reflexivity.
  - vm_compute. reflexivity.
  - reflexivity.
  - vm_compute. reflexivity.
Defined.

(** ** clear, setRoot, readCache *)

(** X9.  After [clear] on a tree with a root the tree is empty and idle:
    [firstToplevel] answers null, [url] the empty string, the job queue is
    empty and the tree not busy, so that [abortReading] right after it does
    nothing; exactly [clearing] was raised and the root is the same. *)
Theorem clear_leaves_empty_idle (w : World) (r : ptr) (rfi : FileInfo) :
  _root w = Some r → store w !! r = Some rfi →
  ∃ w', DirTree.clear w = Some (tt, w')
      ∧ DirTree.firstToplevel w' = Some (None, w')
      ∧ DirTree.url w' = Some ("", w')
      ∧ DirTree.abortReading w' = Some (tt, w')
      ∧ _isBusy w' = false ∧ _jobQueue w' = []
      ∧ emitted w' = emitted w ++ [clearing]
      ∧ _root w' = Some r.
Proof.
  intros Hr Hrfi. rewrite (clear_run w r rfi Hr Hrfi).
  destruct (DirInfo_clear_lookup _ _ _ Hrfi) as (rfi' & Hrfi' & Hch & _).
  eexists. split; [reflexivity|].
  assert (Hft : DirTree.firstToplevel
                  (mkWorld false (Some r) [] (_crossFileSystems w)
                     (_enableLocalDirReader w) (DirInfo_clear r (store w))
                     (emitted w ++ [clearing]))
                = Some (None, mkWorld false (Some r) [] (_crossFileSystems w)
                     (_enableLocalDirReader w) (DirInfo_clear r (store w))
                     (emitted w ++ [clearing]))).
  { unfold DirTree.firstToplevel. repeat step. unfold ret, firstChild.
    rewrite Hch. reflexivity. }
  repeat split.
  - exact Hft.
  - unfold DirTree.url. erewrite bind_run by exact Hft. reflexivity.
Qed.

Lemma clear_leaves_empty_idle_witness :
  ∃ w', DirTree.clear Sample.scanned = Some (tt, w')
      ∧ DirTree.firstToplevel w' = Some (None, w')
      ∧ DirTree.url w' = Some ("", w')
      ∧ DirTree.abortReading w' = Some (tt, w')
      ∧ _isBusy w' = false ∧ _jobQueue w' = []
      ∧ emitted w' = emitted Sample.scanned ++ [clearing]
      ∧ _root w' = Some 0%nat.
Proof.
  apply (clear_leaves_empty_idle Sample.scanned 0%nat
           (mkFileInfo "" None true false false true 0 [1%nat] None 4106 2 1)).
  - reflexivity.
  - vm_compute. reflexivity.
Defined.

(** X10.  Replacing the root in one call or in two is the same: for a root
    without parent, [deleteSubtree] of the root followed by [setRoot] ends in
    the very world [setRoot] alone ends in: the old root destroyed,
    [deletingChild] and [childDeleted] raised once each, the new root in
    place. *)
Theorem deleteSubtree_then_setRoot (newRoot : option ptr) (w : World)
  (r : ptr) (rfi : FileInfo) :
  _root w = Some r → store w !! r = Some rfi → _parent rfi = None →
  (DirTree.deleteSubtree r ;; DirTree.setRoot newRoot) w
  = DirTree.setRoot newRoot w
  ∧ DirTree.setRoot newRoot w
    = Some (tt, mkWorld (_isBusy w) newRoot (_jobQueue w)
                  (_crossFileSystems w) (_enableLocalDirReader w)
                  (delete_object r (store w))
                  (emitted w ++ [deletingChild r; childDeleted])).
Proof.
  intros Hr Hrfi Hpar.
  destruct w as [b rt q c l s tr]. cbn in Hr, Hrfi. subst rt.
  assert (Hset : DirTree.setRoot newRoot (mkWorld b (Some r) q c l s tr)
                 = Some (tt, mkWorld b newRoot q c l (delete_object r s)
                               (tr ++ [deletingChild r; childDeleted]))).
  { unfold DirTree.setRoot, delete_ptr. repeat step. unfold set_root. cbn.
    rewrite <- !app_assoc. reflexivity. }
  split; [|exact Hset]. rewrite Hset.
  clear Hset. unfold DirTree.deleteSubtree, DirTree.deletingChildNotify, delete_ptr,
    DirTree.setRoot.
  repeat step. rewrite Hpar.
  destruct (decide (Some r = Some r)); [|done].
  repeat step.
  destruct (decide (None = Some r)); [done|].
  repeat step. unfold set_root. cbn. rewrite <- !app_assoc. reflexivity.
Qed.

Lemma deleteSubtree_then_setRoot_witness :
  (DirTree.deleteSubtree 0%nat ;; DirTree.setRoot None) Sample.scanned
  = DirTree.setRoot None Sample.scanned.
Proof.
  refine (proj1 (deleteSubtree_then_setRoot None Sample.scanned 0%nat
                   (mkFileInfo "" None true false false true 0 [1%nat] None
                      4106 2 1) _ _ _)).
  - reflexivity.
  - vm_compute. reflexivity.
  - reflexivity.
Defined.

(** X11.  [setRoot] does not guard against being handed the current root:
    it deletes the root and then installs the pointer to the deleted
    object, so that [startReading] and [clear] afterwards have no result. *)
Theorem setRoot_current_root
  (absoluteFilePath baseName : string → string)
  (lstat : string → option StatInfo) (rawUrl : string)
  (w : World) (r : ptr) (rfi : FileInfo) :
  _root w = Some r → store w !! r = Some rfi →
  ∃ w', DirTree.setRoot (Some r) w = Some (tt, w')
      ∧ _root w' = Some r ∧ store w' !! r = None
      ∧ DirTree.startReading absoluteFilePath baseName lstat rawUrl w' = None
      ∧ DirTree.clear w' = None.
Proof.
  intros Hr Hrfi.
  destruct w as [b rt q c l s tr]. cbn in Hr, Hrfi. subst rt.
  pose proof (delete_object_self r s) as Hgone.
  unfold DirTree.setRoot, delete_ptr. repeat step.
  eexists. split; [reflexivity|]. cbn. repeat split; [exact Hgone| |].
  - unfold DirTree.startReading, DirTree.deref_root. repeat step.
    rewrite ?bind_assoc.
    erewrite bind_None; [done|]. apply deref_dead. exact Hgone.
  - unfold DirTree.clear. repeat step. rewrite ?bind_assoc.
    erewrite bind_None; [done|]. apply deref_dead. exact Hgone.
Qed.

Lemma setRoot_current_root_witness :
  ∃ w', DirTree.setRoot (Some 0%nat) Sample.scanned = Some (tt, w')
      ∧ _root w' = Some 0%nat ∧ store w' !! 0%nat = None
      ∧ Sample.startReading "/a" w' = None
      ∧ DirTree.clear w' = None.
Proof.
  apply (setRoot_current_root Sample.absoluteFilePath Sample.baseName
           Sample.lstat "/a" Sample.scanned 0%nat
           (mkFileInfo "" None true false false true 0 [1%nat] None 4106 2 1)).
  - reflexivity.
  - vm_compute. reflexivity.
Defined.

(** X12.  A cache read can always be called off: [readCache] followed by
    [abortReading] leaves the tree not busy with an empty job queue (jobs
    that were pending before are cancelled as well), neither the root nor
    any entry touched, and [startingReading] then [aborted] raised.
    [readCache] needs no root and does not look at the file. *)
Theorem readCache_then_abort (cacheFileName : string) (w : World) :
  (DirTree.readCache cacheFileName ;; DirTree.abortReading) w
  = Some (tt, mkWorld false (_root w) [] (_crossFileSystems w)
                (_enableLocalDirReader w) (store w)
                (emitted w ++ [startingReading; aborted])).
Proof.
  destruct w as [b rt q c l s tr]. cbn.
  unfold DirTree.readCache, DirTree.addJob, DirTree.abortReading.
  repeat step. unfold DirReadJobQueue_enqueue.
  destruct q; cbn; repeat step; unfold emit; cbn;
    rewrite <- !app_assoc; reflexivity.
Qed.

(** * ProcessOutput.h *)

Lemma string_append_assoc (a b c : string) :
  ((a ++ b) ++ c)%string = (a ++ b ++ c)%string.
Proof.
  induction a as [|x a IH]; [done|].
  change (String x ((a ++ b) ++ c) = String x (a ++ b ++ c))%string.
  by rewrite IH.
Qed.

(** X13.  Printing a process only appends to the stream.  A null pointer
    prints as a fixed marker; a process with at most one argument prints as
    its program name; with two or more arguments it prints as the
    arguments after the first, joined by blanks, whatever the program.  The
    first argument is never shown, be it [-c] or not. *)
Theorem print_process_shows :
  (∀ s1 s2 p, ProcessOutput.print_process (s1 ++ s2) p
              = (s1 ++ ProcessOutput.print_process s2 p)%string)
  ∧ (∀ s, ProcessOutput.print_process s None
          = (s ++ "<NULL QProcess>")%string)
  ∧ (∀ s prog args, (List.length args ≤ 1)%nat →
       ProcessOutput.print_process s
         (Some (ProcessOutput.mkQProcess prog args))
       = (s ++ prog)%string)
  ∧ (∀ s prog a b rest,
       ProcessOutput.print_process s
         (Some (ProcessOutput.mkQProcess prog (a :: b :: rest)))
       = (s ++ ProcessOutput.join " " (b :: rest))%string)
  ∧ (∀ s prog a a' rest,
       ProcessOutput.print_process s
         (Some (ProcessOutput.mkQProcess prog (a :: rest)))
       = ProcessOutput.print_process s
           (Some (ProcessOutput.mkQProcess prog (a' :: rest)))).
Proof.
  split; [|split; [|split; [|split]]].
  - intros s1 s2 [[prog [|a [|b rest]]]|]; cbn;
      by rewrite string_append_assoc.
  - done.
  - intros s prog [|a [|b rest]] Hlen; cbn in *; [done | done | lia].
  - done.
  - intros s prog a a' [|b rest]; done.
Qed.

Lemma print_process_shows_witness :
  ProcessOutput.print_process "$ "
    (Some (ProcessOutput.mkQProcess "/bin/sh" ["-c"]))
  = "$ /bin/sh".
Proof.
  apply (proj1 (proj2 (proj2 print_process_shows)) "$ " "/bin/sh" ["-c"]).
  cbn. lia.
Defined.
